(** * Medical-Dictation: the dictation pipeline and the document buffer

    A shallow embedding of the text-mutation core of [src/main.py]
    (class [MedicalDictationApp]): the Tk text widget behind [text_area],
    the undo log [appended_chunks], the flag [capitalize_next], the status
    line, the voice-command table of [handle_recognized_text], and the way
    [process_audio] hands its result to the Tk event loop with [after].
    Around that core: the microphone filter, the OpenAI helper, the AI
    requests, the Record, Stop, Load and Save actions of the window.

    Texts are strings of 8-bit characters read as the code points 0..127;
    Python's [str.isspace], [str.lower], [str.upper] and
    [string.punctuation] are modelled on that range (above it the
    character functions below are the identity and recognise nothing). *)

From Stdlib Require Import Ascii String DecimalString Lia.
From stdpp Require Import base list strings gmap.

Local Open Scope nat_scope.

(** ** Characters *)

Module Char.

Definition code (c : ascii) : nat := nat_of_ascii c.

Definition between (lo hi n : nat) : bool := (lo <=? n) && (n <=? hi).

(** [str.isspace] on 0..127: TAB LF VT FF CR, FS GS RS US, and the space. *)
Definition isspace (c : ascii) : bool :=
  between 9 13 (code c) || between 28 32 (code c).

(** [str.lower] and [str.upper] on one character. *)
Definition lower (c : ascii) : ascii :=
  if between 65 90 (code c) then ascii_of_nat (code c + 32) else c.

Definition upper (c : ascii) : ascii :=
  if between 97 122 (code c) then ascii_of_nat (code c - 32) else c.

Definition dquote : ascii := "034"%char.
Definition newline : ascii := "010"%char.

End Char.

(** ** Strings: the [str] methods the source calls *)

Module Str.

Definition nl : string := String Char.newline "".

(** [string.punctuation] *)
Definition punctuation : string :=
  "!" +:+ String Char.dquote "" +:+ "#$%&'()*+,-./:;<=>?@[\]^_`{|}~".

Fixpoint mem (c : ascii) (s : string) : bool :=
  match s with
  | EmptyString => false
  | String d s' => if Ascii.eqb c d then true else mem c s'
  end.

Fixpoint lower (s : string) : string :=
  match s with
  | EmptyString => EmptyString
  | String c s' => String (Char.lower c) (lower s')
  end.

Fixpoint lstrip (s : string) : string :=
  match s with
  | EmptyString => EmptyString
  | String c s' => if Char.isspace c then lstrip s' else s
  end.

Fixpoint rstrip (s : string) : string :=
  match s with
  | EmptyString => EmptyString
  | String c s' =>
      match rstrip s' with
      | EmptyString => if Char.isspace c then EmptyString else String c ""
      | r => String c r
      end
  end.

(** [s.strip()] *)
Definition strip (s : string) : string := rstrip (lstrip s).

(** [s.translate(str.maketrans('', '', deleted))] *)
Fixpoint translate_delete (deleted : string) (s : string) : string :=
  match s with
  | EmptyString => EmptyString
  | String c s' =>
      if mem c deleted then translate_delete deleted s'
      else String c (translate_delete deleted s')
  end.

(** [s[-1]], when [s] is not empty *)
Fixpoint last (s : string) : option ascii :=
  match s with
  | EmptyString => None
  | String c EmptyString => Some c
  | String _ s' => last s'
  end.

(** [s[0].upper() + s[1:]], for a non-empty [s] *)
Definition upper_first (s : string) : string :=
  match s with
  | EmptyString => EmptyString
  | String c s' => String (Char.upper c) s'
  end.

(** [s.split()]: the maximal runs of non-whitespace characters.  [word] is
    the run being read, most recent character first. *)
Fixpoint split_from (word : list ascii) (s : string) : list string :=
  match s with
  | EmptyString =>
      match word with
      | [] => []
      | _ => [string_of_list_ascii (rev word)]
      end
  | String c s' =>
      if Char.isspace c then
        match word with
        | [] => split_from [] s'
        | _ => string_of_list_ascii (rev word) :: split_from [] s'
        end
      else split_from (c :: word) s'
  end.

Definition split (s : string) : list string := split_from [] s.

(** [sep.join(words)] *)
Fixpoint join (sep : string) (words : list string) : string :=
  match words with
  | [] => EmptyString
  | [w] => w
  | w :: ws => w +:+ sep +:+ join sep ws
  end.

(** [words[:-1]] *)
Definition drop_last {A} (l : list A) : list A := removelast l.

(** [s[:a] + s[b:]]: the text without the characters at offsets a..b-1 *)
Definition cut (a b : nat) (s : string) : string :=
  String.substring 0 a s +:+ String.substring b (String.length s - b) s.

(** [str(n)] for a natural number *)
Definition of_nat (n : nat) : string := NilZero.string_of_uint (Nat.to_uint n).

End Str.

(** ** The Tk text widget

    [content] is what [get("1.0", "end-1c")] returns: the text without the
    newline Tk keeps at the very end.  Indices are character offsets into
    [content].  [tags] gives, for each tag name, its ranges as
    [tag_ranges] lists them. *)

Module Text.

Record t := mk { content : string; tags : gmap string (list (nat * nat)) }.

Definition empty : t := mk "" ∅.

(** [get("1.0", "end-1c")] and [get("1.0", tk.END)] *)
Definition get (w : t) : string := content w.
Definition get_to_end (w : t) : string := content w +:+ Str.nl.

(** [insert(tk.END, chars)] with no tag list: the new text lands after
    every existing character, so no range moves and the text is untagged. *)
Definition insert_end (chars : string) (w : t) : t :=
  mk (content w +:+ chars) (tags w).

(** Where offset [p] ends up once the characters a..b-1 are gone. *)
Definition shift (a b p : nat) : nat :=
  if p <=? a then p else if p <=? b then a else p - (b - a).

Definition shift_ranges (a b : nat) (rs : list (nat * nat)) : list (nat * nat) :=
  filter (fun r => fst r < snd r) (map (fun r => (shift a b (fst r), shift a b (snd r))) rs).

(** [delete(index1, index2)]: nothing happens unless index1 is before
    index2; ranges shrink with the text and empty ones disappear. *)
Definition delete (a b : nat) (w : t) : t :=
  if a <? b then mk (Str.cut a b (content w)) (shift_ranges a b <$> tags w)
  else w.

(** [delete("1.0", tk.END)] *)
Definition delete_all (w : t) : t := delete 0 (String.length (content w)) w.

(** [tag_ranges(tag)]: empty for a tag the widget does not have *)
Definition tag_ranges (tag : string) (w : t) : list (nat * nat) :=
  default [] (tags w !! tag).

(** [tag_delete(tag)] *)
Definition tag_delete (tag : string) (w : t) : t :=
  mk (content w) (base.delete tag (tags w)).

End Text.

(** ** The application state

    [appended_chunks] is the Python list, oldest first ([append] adds at the
    end, [pop] takes from the end).  [status_label] is the history of the
    texts shown in the status bar, newest first: every call of
    [update_status] adds one.  [clipboard] is what [copy_text] last put on
    the clipboard. *)

Record app := mkApp {
  text_area : Text.t;
  appended_chunks : list string;
  capitalize_next : bool;
  status_label : list string;
  clipboard : string
}.

(** The state [__init__] builds. *)
Definition init : app := mkApp Text.empty [] false ["Status: Idle"] "".

Definition with_text_area (w : Text.t) (s : app) : app :=
  mkApp w (appended_chunks s) (capitalize_next s) (status_label s) (clipboard s).

Definition with_appended_chunks (l : list string) (s : app) : app :=
  mkApp (text_area s) l (capitalize_next s) (status_label s) (clipboard s).

Definition with_capitalize_next (b : bool) (s : app) : app :=
  mkApp (text_area s) (appended_chunks s) b (status_label s) (clipboard s).

Definition with_clipboard (c : string) (s : app) : app :=
  mkApp (text_area s) (appended_chunks s) (capitalize_next s) (status_label s) c.

(** The document as the user reads it. *)
Definition buffer (s : app) : string := Text.get (text_area s).

Definition is_empty (s : string) : bool :=
  match s with EmptyString => true | _ => false end.

(** [current[-1] in chars], for a non-empty [current] *)
Definition last_in (chars current : string) : bool :=
  match Str.last current with
  | Some c => Str.mem c chars
  | None => false
  end.

Definition update_status (message : string) (s : app) : app :=
  mkApp (text_area s) (appended_chunks s) (capitalize_next s)
        (("Status: " +:+ message) :: status_label s) (clipboard s).

(** [new_session] and [clear_text] ask the user first; [yes] is the answer. *)
Definition new_session (yes : bool) (s : app) : app :=
  if yes then
    with_appended_chunks [] (with_text_area (Text.delete_all (text_area s)) s)
  else s.

Definition clear_text (yes : bool) (s : app) : app :=
  if yes then
    with_appended_chunks [] (with_text_area (Text.delete_all (text_area s)) s)
  else s.

(** [save_text] only shows dialogs and writes files. *)
Definition save_text (s : app) : app := s.

Definition copy_text (s : app) : app :=
  update_status "Text copied to clipboard."
    (with_clipboard (Text.get_to_end (text_area s)) s).

Definition append_text (text : string) (s : app) : app :=
  let current := Text.get (text_area s) in
  let capitalise :=
    (capitalize_next s || is_empty current || last_in ".!?" current)
    && negb (is_empty text) in
  let text' := if capitalise then Str.upper_first text else text in
  let flag := if capitalise then false else capitalize_next s in
  let gap :=
    if negb (is_empty current) && negb (last_in Str.nl current) then " " else "" in
  mkApp (Text.insert_end (gap +:+ text') (text_area s))
        (appended_chunks s ++ ["chunk_" +:+ Str.of_nat (length (appended_chunks s))])
        flag (status_label s) (clipboard s).

Definition scratch_that (s : app) : app :=
  match last (appended_chunks s) with
  | None => update_status "Nothing to scratch." s
  | Some tag =>
      let s1 := with_appended_chunks (removelast (appended_chunks s)) s in
      match Text.tag_ranges tag (text_area s1) with
      | (a, b) :: _ =>
          update_status "Last added text removed."
            (with_text_area (Text.tag_delete tag (Text.delete a b (text_area s1))) s1)
      | [] => update_status "No tagged text found." s1
      end
  end.

Definition delete_last_word (s : app) : app :=
  let current := Text.get (text_area s) in
  if is_empty current then s
  else
    let words := Str.split current in
    with_text_area
      (Text.insert_end (Str.join " " (Str.drop_last words))
         (Text.delete_all (text_area s))) s.

(** ** The voice commands *)

Inductive action :=
  | Insert (chars : string)
  | DeleteLastWord
  | ScratchThat
  | NewDictation
  | ClearText
  | CopyText
  | SaveText.

(** The [commands] dictionary of [handle_recognized_text], in source order. *)
Definition commands : list (string * action) :=
  [ ("new paragraph", Insert (Str.nl +:+ Str.nl));
    ("new line", Insert Str.nl);
    ("full stop", Insert ". ");
    ("comma", Insert ", ");
    ("question mark", Insert "? ");
    ("exclamation point", Insert "! ");
    ("semicolon", Insert "; ");
    ("colon", Insert ": ");
    ("open quote", Insert (String Char.dquote ""));
    ("close quote", Insert (String Char.dquote ""));
    ("open parenthesis", Insert "(");
    ("close parenthesis", Insert ")");
    ("delete last word", DeleteLastWord);
    ("scratch that", ScratchThat);
    ("new dictation", NewDictation);
    ("clear text", ClearText);
    ("copy text", CopyText);
    ("save text", SaveText) ].

(** [commands.get(key)] *)
Fixpoint lookup_command (key : string) (table : list (string * action)) : option action :=
  match table with
  | [] => None
  | (k, a) :: rest => if String.eqb key k then Some a else lookup_command key rest
  end.

Definition run_action (yes : bool) (a : action) (s : app) : app :=
  match a with
  | Insert chars => with_text_area (Text.insert_end chars (text_area s)) s
  | DeleteLastWord => delete_last_word s
  | ScratchThat => scratch_that s
  | NewDictation => new_session yes s
  | ClearText => clear_text yes s
  | CopyText => copy_text s
  | SaveText => save_text s
  end.

(** [text.lower().strip().translate(str.maketrans('', '', string.punctuation))] *)
Definition cleaned (text : string) : string :=
  Str.translate_delete Str.punctuation (Str.strip (Str.lower text)).

Definition handle_recognized_text (yes : bool) (text : string) (s : app) : app :=
  if is_empty (Str.strip text) then s
  else
    match lookup_command (cleaned text) commands with
    | Some a => run_action yes a s
    | None => append_text text s
    end.

(** ** From the worker pool to the event loop

    [callback] submits [process_audio] to a pool of four workers.  A worker
    transcribes its chunk and, when it is done, schedules one call on the
    Tk event loop with [after(0, ...)]; the event loop runs the scheduled
    calls oldest first.  What the speech service answers and what the user
    answers to a confirmation dialog are inputs of the model. *)

Inductive outcome :=
  | Transcript (text : string)
  | UnknownValueError
  | RequestError (e : string)
  | OtherError (e : string).

(** The call a worker schedules with [after]. *)
Inductive scheduled :=
  | HandleRecognizedText (text : string)
  | UpdateStatus (message : string).

Definition process_audio (o : outcome) : scheduled :=
  match o with
  | Transcript text => HandleRecognizedText text
  | UnknownValueError => UpdateStatus "Audio not understood"
  | RequestError e => UpdateStatus ("Request error: " +:+ e)
  | OtherError e => UpdateStatus ("Error: " +:+ e)
  end.

Definition run_scheduled (yes : bool) (call : scheduled) (s : app) : app :=
  match call with
  | HandleRecognizedText text => handle_recognized_text yes text s
  | UpdateStatus message => update_status message s
  end.

Definition max_workers : nat := 4.

(** The commands whose handler asks for confirmation before it acts:
    [new_session] and [clear_text] call [messagebox.askyesno]. *)
Definition asks_confirmation (a : action) : bool :=
  match a with
  | NewDictation | ClearText => true
  | _ => false
  end.

(** Whether running a scheduled call opens a confirmation dialog. *)
Definition opens_dialog (call : scheduled) : bool :=
  match call with
  | HandleRecognizedText text =>
      if is_empty (Str.strip text) then false
      else
        match lookup_command (cleaned text) commands with
        | Some a => asks_confirmation a
        | None => false
        end
  | UpdateStatus _ => false
  end.

(** [submitted]: the chunks handed to the pool and not yet transcribed, in
    the order they were spoken, each with the answer the service will give;
    the first [max_workers] of them are running.  [scheduled_calls]: the
    calls waiting in the event loop, oldest first.

    [open_dialogs]: the confirmation dialogs on screen, the one opened last
    first, each with the call that opened it and the answer the user will
    give.  A confirmation dialog is modal: its handler waits inside
    [askyesno] while the dialog's own event loop goes on running the
    scheduled calls, and a dialog opened from there has to be answered
    before the one under it.  The handler does nothing before it asks, so
    the whole effect of its call falls at the moment of the answer.
    ([save_text] shows dialogs too; it changes nothing of the state
    afterwards.) *)
Record pipeline := mkPipeline {
  submitted : list outcome;
  scheduled_calls : list scheduled;
  document : app;
  open_dialogs : list (scheduled * bool)
}.

Inductive event :=
  | Submit (o : outcome)     (* the listener thread calls [callback] *)
  | Complete (i : nat)       (* the i-th submitted chunk is transcribed *)
  | Dispatch (yes : bool)    (* the event loop runs its oldest call; [yes]
                                is the answer its dialog will get, if it
                                opens one *)
  | Close.                   (* the user answers the dialog opened last *)

Definition step (e : event) (p : pipeline) : option pipeline :=
  match e with
  | Submit o =>
      Some (mkPipeline (submitted p ++ [o]) (scheduled_calls p) (document p)
              (open_dialogs p))
  | Complete i =>
      if i <? max_workers then
        match submitted p !! i with
        | Some o =>
            Some (mkPipeline (base.delete i (submitted p))
                    (scheduled_calls p ++ [process_audio o]) (document p)
                    (open_dialogs p))
        | None => None
        end
      else None
  | Dispatch yes =>
      match scheduled_calls p with
      | call :: rest =>
          if opens_dialog call then
            Some (mkPipeline (submitted p) rest (document p)
                    ((call, yes) :: open_dialogs p))
          else
            Some (mkPipeline (submitted p) rest
                    (run_scheduled yes call (document p)) (open_dialogs p))
      | [] => None
      end
  | Close =>
      match open_dialogs p with
      | (call, yes) :: rest =>
          Some (mkPipeline (submitted p) (scheduled_calls p)
                  (run_scheduled yes call (document p)) rest)
      | [] => None
      end
  end.

Fixpoint exec (trace : list event) (p : pipeline) : option pipeline :=
  match trace with
  | [] => Some p
  | e :: trace' =>
      match step e p with
      | Some p' => exec trace' p'
      | None => None
      end
  end.

Definition start : pipeline := mkPipeline [] [] init [].

(** The answers of the service in the order the workers finish. *)
Fixpoint completions (trace : list event) (pending : list outcome) : list outcome :=
  match trace with
  | [] => []
  | Submit o :: trace' => completions trace' (pending ++ [o])
  | Complete i :: trace' =>
      match pending !! i with
      | Some o => o :: completions trace' (base.delete i pending)
      | None => []
      end
  | Dispatch _ :: trace' => completions trace' pending
  | Close :: trace' => completions trace' pending
  end.

(** The answers of the service in the order the chunks were spoken. *)
Fixpoint submissions (trace : list event) : list outcome :=
  match trace with
  | [] => []
  | Submit o :: trace' => o :: submissions trace'
  | _ :: trace' => submissions trace'
  end.

(** The user's answers, one per dispatched call (each counts only if the
    call opens a confirmation dialog). *)
Fixpoint answers (trace : list event) : list bool :=
  match trace with
  | [] => []
  | Dispatch yes :: trace' => yes :: answers trace'
  | _ :: trace' => answers trace'
  end.

(** Running calls one after the other, each with the user's answer. *)
Fixpoint run_all (calls : list (scheduled * bool)) (s : app) : app :=
  match calls with
  | [] => s
  | (call, yes) :: rest => run_all rest (run_scheduled yes call s)
  end.

(** A dispatched call with its answer where no confirmation is accepted:
    if the call opens a dialog, the answer is "no". *)
Definition declined (c : scheduled * bool) : bool :=
  negb (opens_dialog (fst c) && snd c).

(** The dialogs on screen were all opened by confirmation calls and none of
    them will be accepted. *)
Definition dialogs_declined (ds : list (scheduled * bool)) : Prop :=
  Forall (fun c => opens_dialog (fst c) = true /\ snd c = false) ds.

(** The document after the given answers were applied in the given order,
    every dialog answered "no". *)
Definition applied_in_order (os : list outcome) : app :=
  run_all (map (fun o => (process_audio o, false)) os) init.

Definition hello_stop_world : list outcome :=
  [Transcript "hello"; Transcript "full stop"; Transcript "world"].

(** Chunks 0, 1, 2 are submitted; chunk 1 finishes first, then 0, then 2. *)
Definition out_of_order_trace : list event :=
  map Submit hello_stop_world
  ++ [Complete 1; Complete 0; Complete 0]
  ++ [Dispatch false; Dispatch false; Dispatch false].

Definition in_order_trace : list event :=
  map Submit hello_stop_world
  ++ [Complete 0; Complete 0; Complete 0]
  ++ [Dispatch false; Dispatch false; Dispatch false].


(** ** The spec's vocabulary *)

(** "The buffer's last character is one of . ! ?" *)
Definition ends_in_terminator (s : string) : bool := last_in ".!?" s.

(** The blank put before a literal text: none at the start of the document
    and none right after a newline. *)
Definition gap (current : string) : string :=
  if negb (is_empty current) && negb (last_in Str.nl current) then " " else "".

(** "Normalize text: lowercase, strip all punctuation, trim", in that order. *)
Definition spec_normalize (text : string) : string :=
  Str.strip (Str.translate_delete Str.punctuation (Str.lower text)).



(** Every character of [s] is one of [chars]. *)
Fixpoint all_in (chars s : string) : bool :=
  match s with
  | EmptyString => true
  | String c s' => Str.mem c chars && all_in chars s'
  end.

(** What the proofs need of a command phrase: it is not empty, has no
    blank at either end and no punctuation. *)
Definition plain_phrase (k : string) : Prop :=
  k <> "" /\ Str.lstrip k = k /\ Str.rstrip k = k
  /\ Str.translate_delete Str.punctuation k = k.

(** ** Further vocabulary *)

(** The names [append_text] gives to its first [n] records. *)
Definition chunk_names (n : nat) : list string :=
  map (fun i => "chunk_" +:+ Str.of_nat i) (seq 0 n).

(** No character of [s] is whitespace. *)
Fixpoint no_space (s : string) : bool :=
  match s with
  | EmptyString => true
  | String c s' => negb (Char.isspace c) && no_space s'
  end.

(** Every character of [s] is whitespace. *)
Fixpoint all_space (s : string) : bool :=
  match s with
  | EmptyString => true
  | String c s' => Char.isspace c && all_space s'
  end.

(** The undo log holds the names chunk_0, chunk_1, ... in order. *)
Definition log_named (s : app) : Prop :=
  appended_chunks s = chunk_names (length (appended_chunks s)).

(** The trace that empties a pipeline: the oldest chunk completes, over and
    over, then the event loop starts every call (each dialog it opens will
    be answered "no"), then the user answers every dialog on screen. *)
Definition drain (p : pipeline) : list event :=
  replicate (length (submitted p)) (Complete 0)
  ++ replicate (length (scheduled_calls p) + length (submitted p)) (Dispatch false)
  ++ replicate
       (length (List.filter opens_dialog
                  (scheduled_calls p ++ map process_audio (submitted p)))
        + length (open_dialogs p))
       Close.

(** ** More [str] methods *)

(** [s.startswith(k)] *)
Fixpoint starts_with (k s : string) : bool :=
  match k, s with
  | EmptyString, _ => true
  | String _ _, EmptyString => false
  | String a k', String b s' => Ascii.eqb a b && starts_with k' s'
  end.

(** [k in s] for strings: [k] occurs in [s] *)
Fixpoint contains (k s : string) : bool :=
  starts_with k s
  || match s with
     | EmptyString => false
     | String _ s' => contains k s'
     end.

(** [s.endswith(k)]: [k] starts at one of the positions of [s] and runs to
    its end. *)
Fixpoint ends_with (k s : string) : bool :=
  String.eqb k s
  || match s with
     | EmptyString => false
     | String _ s' => ends_with k s'
     end.

(** ** Microphones: [get_valid_microphones]

    A device is the dictionary PyAudio returns for it; the two keys the
    source reads are optional ([info.get(key, default)]). *)

Record device_info := mkDevice {
  maxInputChannels : option Z;
  name : option string
}.

Definition mic_keywords : list string := ["microphone"; "mic"; "input"; "usb"].

(** The condition of the loop body. *)
Definition is_valid_microphone (info : device_info) : bool :=
  (0 <? default 0 (maxInputChannels info))%Z
  && existsb (fun k => contains k (Str.lower (default "" (name info)))) mic_keywords.

Definition get_valid_microphones (devices : list device_info) : list string :=
  map (fun info => default "" (name info)) (List.filter is_valid_microphone devices).

(** [get_valid_microphones() or sr.Microphone.list_microphone_names()], and
    the selection [create_widgets] and [refresh_microphones] make: position
    0 when there is a name, none (Tk's -1) otherwise. *)
Definition mic_names (devices : list device_info) (all_names : list string) : list string :=
  match get_valid_microphones devices with
  | [] => all_names
  | names => names
  end.

Definition mic_current (devices : list device_info) (all_names : list string) : option nat :=
  match mic_names devices all_names with
  | [] => None
  | _ => Some 0
  end.

(** ** The OpenAI helpers

    [response] is what the API call yields: the content of the first
    choice, or nothing when anything in the [try] block raises.  The
    prompts live in a module outside the repository's source and are
    parameters. *)

Definition call_openai (response : option string) (prompt : string) : string :=
  match response with
  | Some content => Str.strip content
  | None => prompt
  end.

Definition refine_full_prompt (REFINE_PROMPT text : string) : string :=
  REFINE_PROMPT +:+ Str.nl +:+ Str.nl +:+ "Original: " +:+ text
  +:+ Str.nl +:+ Str.nl +:+ "Corrected:".

Definition improve_full_prompt (IMPROVE_PROMPT text : string) : string :=
  IMPROVE_PROMPT +:+ Str.nl +:+ Str.nl +:+ "Original: " +:+ text
  +:+ Str.nl +:+ Str.nl +:+ "Improved:".

Definition adjust_text_with_openai
    (REFINE_PROMPT : string) (response : option string) (text : string) : string :=
  call_openai response (refine_full_prompt REFINE_PROMPT text).

Definition improve_text_with_openai
    (IMPROVE_PROMPT : string) (response : option string) (text : string) : string :=
  call_openai response (improve_full_prompt IMPROVE_PROMPT text).

(** ** The window: buttons, recording, AI requests

    A button is [true] when enabled (a disabled button ignores clicks);
    [progress_bar] is [true] while the bar is shown and running. *)

Record window := mkWindow {
  core : app;
  listening : bool;
  stop_listening_function : bool;
  record_button : bool;
  stop_button : bool;
  refine_button : bool;
  improve_button : bool;
  soap_button : bool;
  load_button : bool;
  progress_bar : bool
}.

(** The window [__init__] builds; without an OpenAI key the refine and
    improve buttons are disabled and a warning is shown. *)
Definition init_window (has_openai_key : bool) : window :=
  mkWindow
    (if has_openai_key then init
     else update_status "Warning: OpenAI API key not provided. AI features disabled." init)
    false false true false has_openai_key has_openai_key true true false.

Definition with_core (s : app) (w : window) : window :=
  mkWindow s (listening w) (stop_listening_function w) (record_button w)
    (stop_button w) (refine_button w) (improve_button w) (soap_button w)
    (load_button w) (progress_bar w).

Inductive button := RefineButton | ImproveButton | SoapButton | LoadButton.

Definition button_state (b : button) (w : window) : bool :=
  match b with
  | RefineButton => refine_button w
  | ImproveButton => improve_button w
  | SoapButton => soap_button w
  | LoadButton => load_button w
  end.

(** [button.config(state=...)] *)
Definition config_button (b : button) (enabled : bool) (w : window) : window :=
  mkWindow (core w) (listening w) (stop_listening_function w) (record_button w)
    (stop_button w)
    (match b with RefineButton => enabled | _ => refine_button w end)
    (match b with ImproveButton => enabled | _ => improve_button w end)
    (match b with SoapButton => enabled | _ => soap_button w end)
    (match b with LoadButton => enabled | _ => load_button w end)
    (progress_bar w).

Definition with_progress_bar (running : bool) (w : window) : window :=
  mkWindow (core w) (listening w) (stop_listening_function w) (record_button w)
    (stop_button w) (refine_button w) (improve_button w) (soap_button w)
    (load_button w) running.

(** [start_recording]; [mic_ok] tells whether [sr.Microphone] could be
    opened. *)
Definition start_recording (mic_ok : bool) (w : window) : window :=
  if listening w then w
  else
    let w1 := with_core (update_status "Listening..." (core w)) w in
    if mic_ok then
      mkWindow (core w1) true true false true (refine_button w1) (improve_button w1)
        (soap_button w1) (load_button w1) (progress_bar w1)
    else w1.

Definition stop_recording (w : window) : window :=
  if listening w && stop_listening_function w then
    mkWindow (update_status "Idle" (core w)) false (stop_listening_function w)
      true false (refine_button w) (improve_button w) (soap_button w)
      (load_button w) (progress_bar w)
  else w.

(** What the user does with the two recording buttons. *)
Inductive recording_click := ClickRecord (mic_ok : bool) | ClickStop.

Definition click_recording (c : recording_click) (w : window) : window :=
  match c with
  | ClickRecord mic_ok => if record_button w then start_recording mic_ok w else w
  | ClickStop => if stop_button w then stop_recording w else w
  end.

(** [_process_text_with_ai] up to the submission of the task: the new
    window and the text the task is given, if a task is submitted. *)
Definition _process_text_with_ai (b : button) (w : window) : window * option string :=
  let text := Str.strip (Text.get_to_end (text_area (core w))) in
  if is_empty text then (w, None)
  else
    (with_progress_bar true
       (config_button b false
          (with_core (update_status "Processing text..." (core w)) w)),
     Some text).

Definition _update_text_area
    (new_text success_message : string) (b : button) (w : window) : window :=
  with_progress_bar false
    (config_button b true
       (with_core
          (update_status success_message
             (with_text_area
                (Text.insert_end new_text (Text.delete_all (text_area (core w))))
                (core w)))
          w)).

(** One whole AI request: the click, the task on the pool, the scheduled
    [_update_text_area].  [between] is what the event loop does to the
    window while the task is running. *)
Definition ai_request
    (b : button) (success_message : string) (api_func : string -> string)
    (between : window -> window) (w : window) : window :=
  if button_state b w then
    match _process_text_with_ai b w with
    | (w1, Some text) => _update_text_area (api_func text) success_message b (between w1)
    | (w1, None) => w1
    end
  else w.

Definition refine_text
    (REFINE_PROMPT : string) (response : option string)
    (between : window -> window) (w : window) : window :=
  ai_request RefineButton "Text refined."
    (adjust_text_with_openai REFINE_PROMPT response) between w.

(** A recognized text handled by the event loop of a window. *)
Definition window_recognized (yes : bool) (text : string) (w : window) : window :=
  with_core (handle_recognized_text yes text (core w)) w.

(** ** Loading an audio file

    The task of [load_audio_file]: [decoded] tells whether pydub could read
    the file; [deepgram] is nothing without a Deepgram client, else what the
    transcription gave (nothing when it raised).  The result is the
    transcript of the [else] branch, or nothing when the task raised.
    [between] is what the event loop does to the window while the task is
    running. *)
Definition load_audio_task
    (file_path : string) (decoded : bool) (deepgram : option (option string))
    : option string :=
  if ends_with ".mp3" (Str.lower file_path) || ends_with ".wav" (Str.lower file_path)
  then
    if decoded then
      match deepgram with
      | Some (Some transcript) => Some transcript
      | _ => None
      end
    else None
  else None.

Definition load_audio_file
    (file_path : string) (decoded : bool) (deepgram : option (option string))
    (between : window -> window) (w : window) : window :=
  if negb (load_button w) then w
  else if is_empty file_path then w
  else
    let w1 :=
      between
        (with_progress_bar true
           (config_button LoadButton false
              (with_core (update_status "Transcribing audio..." (core w)) w))) in
    let w2 :=
      match load_audio_task file_path decoded deepgram with
      | Some transcript =>
          _update_text_area transcript "Audio transcribed successfully." LoadButton w1
      | None => w1
      end in
    with_progress_bar false (config_button LoadButton true w2).

(** ** Saving: what [save_text] writes

    [file_path] is the answer of the file dialog, empty when cancelled.
    The result is the file written and its text, if any. *)
Definition saved_text (file_path : string) (s : app) : option (string * string) :=
  let text := Str.strip (Text.get_to_end (text_area s)) in
  if is_empty text then None
  else if is_empty file_path then None
  else Some (file_path, text).

(** The device [start_recording] opens.  It calls
    [sr.Microphone(device_index=self.mic_combobox.current())]: the position
    selected in the combobox is taken as the index of the device in the
    list PyAudio enumerates. *)
Definition opened_device (devices : list device_info) (current : nat) : option device_info :=
  devices !! current.

(** A series of clicks on the Record and Stop buttons. *)
Fixpoint run_clicks (clicks : list recording_click) (w : window) : window :=
  match clicks with
  | [] => w
  | c :: rest => run_clicks rest (click_recording c w)
  end.

(** The window right after a click on Load was accepted. *)
Definition loading (w : window) : window :=
  with_progress_bar true
    (config_button LoadButton false
       (with_core (update_status "Transcribing audio..." (core w)) w)).

(** Record and Stop agree with [listening]: exactly one of them is enabled. *)
Definition buttons_follow_listening (w : window) : Prop :=
  record_button w = negb (listening w)
  /\ stop_button w = listening w
  /\ (listening w = true -> stop_listening_function w = true).

(** Three chunks, completed in spoken order: dictation, "clear text", more
    dictation.  The event loop starts the three calls; the dialog of the
    second one, which the user will accept, is still open. *)
Definition clear_while_dictating : list event :=
  map Submit [Transcript "old notes"; Transcript "clear text";
              Transcript "patient is well"]
  ++ [Complete 0; Complete 0; Complete 0]
  ++ [Dispatch false; Dispatch true; Dispatch false].

(** The pipeline after [clear_while_dictating]: both dictations applied, the
    confirmation dialog of "clear text" on screen. *)
Definition dialog_open : pipeline :=
  mkPipeline [] []
    (run_all [(HandleRecognizedText "old notes", false);
              (HandleRecognizedText "patient is well", false)] init)
    [(HandleRecognizedText "clear text", true)].

(** ** The definitions on small inputs *)

Example isspace_table :
  filter (fun n => Char.isspace (ascii_of_nat n)) (seq 0 128)
  = [9; 10; 11; 12; 13; 28; 29; 30; 31; 32].
Proof. reflexivity. Qed.

Example punctuation_codes :
  map Char.code (list_ascii_of_string Str.punctuation)
  = seq 33 15 ++ seq 58 7 ++ seq 91 6 ++ seq 123 4.
Proof. reflexivity. Qed.

Example lower_ex : Str.lower "Full Stop." = "full stop.".
Proof. reflexivity. Qed.

Example strip_ex : Str.strip ("  a b " +:+ Str.nl) = "a b".
Proof. reflexivity. Qed.

Example split_ex : Str.split (" testing  one" +:+ Str.nl +:+ "two ") = ["testing"; "one"; "two"].
Proof. reflexivity. Qed.

Example join_ex : Str.join " " (Str.drop_last ["testing"; "one"; "two"]) = "testing one".
Proof. reflexivity. Qed.

Example of_nat_ex : Str.of_nat 0 = "0" /\ Str.of_nat 12 = "12".
Proof. split; reflexivity. Qed.

Example cut_ex : Str.cut 2 4 "abcdef" = "abef".
Proof. reflexivity. Qed.

Example hello_ex : buffer (handle_recognized_text false "hello" init) = "Hello".
Proof. reflexivity. Qed.

Example hello_stop_world_ex :
  buffer (handle_recognized_text false "world"
            (handle_recognized_text false "full stop"
               (handle_recognized_text false "hello" init))) = "Hello.  world".
Proof. reflexivity. Qed.

Example scratch_ex :
  let s := scratch_that (handle_recognized_text false "hello" init) in
  buffer s = "Hello" /\ appended_chunks s = [] /\
  head (status_label s) = Some "Status: No tagged text found.".
Proof. vm_compute. auto. Qed.

Example delete_word_ex :
  buffer (delete_last_word (handle_recognized_text false "testing one two" init))
  = "Testing one".
Proof. reflexivity. Qed.

Example out_of_order_ex :
  (buffer ∘ document) <$> exec out_of_order_trace start = Some ".  hello world".
Proof. reflexivity. Qed.

Example in_order_ex :
  (buffer ∘ document) <$> exec in_order_trace start = Some "Hello.  world".
Proof. reflexivity. Qed.

Example completions_ex :
  completions out_of_order_trace []
  = [Transcript "full stop"; Transcript "hello"; Transcript "world"].
Proof. reflexivity. Qed.

(** ** The event loop applies results in completion order *)

Lemma run_all_app calls1 calls2 s :
  run_all (calls1 ++ calls2) s = run_all calls2 (run_all calls1 s).
Proof.
  revert s. induction calls1 as [|[call yes] calls1 IH]; intros s; simpl; [done|].
  apply IH.
Qed.

(** A declined confirmation changes nothing. *)
Lemma run_scheduled_declined call s :
  opens_dialog call = true -> run_scheduled false call s = s.
Proof.
  destruct call as [text|message]; [|done].
  unfold opens_dialog, run_scheduled, handle_recognized_text.
  destruct (is_empty (Str.strip text)); [done|].
  destruct (lookup_command (cleaned text) commands) as [a|]; [|done].
  by destruct a.
Qed.

(** Whatever the interleaving, the calls started so far are the oldest ones
    of: the calls that were waiting, then one call per finished worker. *)
Lemma exec_calls trace : forall p p',
  exec trace p = Some p' ->
  let calls :=
    scheduled_calls p ++ map process_audio (completions trace (submitted p)) in
  length (answers trace) <= length calls
  /\ scheduled_calls p' = drop (length (answers trace)) calls.
Proof.
  induction trace as [|e trace IH]; intros p p' Hexec; simpl in Hexec.
  - injection Hexec as <-. simpl. rewrite app_nil_r. split; [lia|done].
  - destruct (step e p) as [p1|] eqn:Hstep; [|done].
    specialize (IH p1 p' Hexec). simpl in IH.
    destruct e as [o|i|yes|]; simpl in Hstep.
    + injection Hstep as <-. simpl in *. exact IH.
    + destruct (i <? max_workers); [|done].
      destruct (submitted p !! i) as [o|] eqn:Hi; [|done].
      injection Hstep as <-. simpl in *. rewrite Hi. simpl.
      rewrite <- app_assoc in IH. exact IH.
    + destruct (scheduled_calls p) as [|call rest] eqn:Hq; [done|].
      destruct (opens_dialog call); injection Hstep as <-; simpl in *;
        destruct IH as (Hlen & Hrest); (split; [lia|assumption]).
    + destruct (open_dialogs p) as [|[call yes] rest]; [done|].
      injection Hstep as <-. simpl in *. exact IH.
Qed.

(** As long as no confirmation is accepted, the document is the result of
    the calls started so far, in the order they were started. *)
Lemma exec_document trace : forall p p',
  exec trace p = Some p' ->
  dialogs_declined (open_dialogs p) ->
  forallb declined
    (zip (scheduled_calls p ++ map process_audio (completions trace (submitted p)))
         (answers trace)) = true ->
  document p'
  = run_all
      (zip (scheduled_calls p ++ map process_audio (completions trace (submitted p)))
           (answers trace))
      (document p).
Proof.
  induction trace as [|e trace IH]; intros p p' Hexec Hopen Hno; simpl in Hexec.
  - injection Hexec as <-. simpl. by destruct (scheduled_calls p ++ []).
  - destruct (step e p) as [p1|] eqn:Hstep; [|done].
    specialize (IH p1 p' Hexec).
    destruct e as [o|i|yes|]; simpl in Hstep.
    + injection Hstep as <-. simpl in *. by apply IH.
    + destruct (i <? max_workers); [|done].
      destruct (submitted p !! i) as [o|] eqn:Hi; [|done].
      injection Hstep as <-. simpl in *. rewrite Hi in *. simpl in *.
      rewrite <- app_assoc in IH. by apply IH.
    + destruct (scheduled_calls p) as [|call rest] eqn:Hq; [done|].
      simpl in Hno. apply andb_prop in Hno as [Hcall Hno].
      unfold declined in Hcall. simpl in Hcall.
      destruct (opens_dialog call) eqn:Hd; injection Hstep as <-; simpl in *.
      * destruct yes; [done|]. rewrite (run_scheduled_declined _ _ Hd).
        apply IH; [|done]. by constructor.
      * by apply IH.
    + destruct (open_dialogs p) as [|[call yes] rest] eqn:Hds; [done|].
      injection Hstep as <-. simpl in *.
      inversion Hopen as [|? ? [Hd Hyes] Hrest]; subst. simpl in *. subst yes.
      rewrite (run_scheduled_declined _ _ Hd) in IH. by apply IH.
Qed.

Lemma exec_completions_perm trace : forall p p',
  exec trace p = Some p' ->
  submitted p' = [] ->
  completions trace (submitted p) ≡ₚ submitted p ++ submissions trace.
Proof.
  induction trace as [|e trace IH]; intros p p' Hexec Hdone; simpl in Hexec.
  - injection Hexec as <-. rewrite Hdone. done.
  - destruct (step e p) as [p1|] eqn:Hstep; [|done].
    specialize (IH p1 p' Hexec Hdone).
    destruct e as [o|i|yes|]; simpl in Hstep.
    + injection Hstep as <-. simpl in *. by rewrite <- app_assoc in IH.
    + destruct (i <? max_workers); [|done].
      destruct (submitted p !! i) as [o|] eqn:Hi; [|done].
      injection Hstep as <-. simpl in *. rewrite Hi, IH.
      rewrite app_comm_cons. apply Permutation_app_tail.
      symmetry. by apply delete_Permutation.
    + destruct (scheduled_calls p) as [|call rest]; [done|].
      destruct (opens_dialog call); injection Hstep as <-; simpl in *; exact IH.
    + destruct (open_dialogs p) as [|[call yes] rest]; [done|].
      injection Hstep as <-. simpl in *. exact IH.
Qed.

(** C1, as the code has it: once every submitted chunk is transcribed, every
    scheduled call has run and every dialog is answered, each result has
    been started exactly once, in the order the workers completed (a
    permutation of the order the chunks were spoken); and when no "new
    dictation" or "clear text" confirmation was accepted, the document is
    the one obtained by applying the results in that completion order; when
    the workers complete in spoken order it is the spoken-order document. *)
Theorem C1_applied_in_completion_order trace p :
  exec trace start = Some p ->
  submitted p = [] ->
  scheduled_calls p = [] ->
  open_dialogs p = [] ->
  forallb declined
    (zip (map process_audio (completions trace [])) (answers trace)) = true ->
  completions trace [] ≡ₚ submissions trace
  /\ length (answers trace) = length (completions trace [])
  /\ document p
     = run_all (zip (map process_audio (completions trace [])) (answers trace)) init
  /\ (completions trace [] = submissions trace ->
      document p
      = run_all (zip (map process_audio (submissions trace)) (answers trace)) init).
Proof.
  intros Hexec Hsub Hcalls Hdialogs Hno.
  pose proof (exec_completions_perm _ _ _ Hexec Hsub) as Hperm.
  destruct (exec_calls _ _ _ Hexec) as (Hlen & Hrest).
  pose proof (exec_document _ _ _ Hexec (List.Forall_nil _) Hno) as Hdoc. simpl in *.
  rewrite Hcalls in Hrest. symmetry in Hrest. apply drop_nil_inv in Hrest.
  rewrite length_map in *.
  repeat split; [done | lia | done |].
  intros <-. exact Hdoc.
Qed.

Lemma C1_applied_in_completion_order_witness :
  exists p,
    exec out_of_order_trace start = Some p
    /\ document p
       = run_all (zip (map process_audio (completions out_of_order_trace []))
                      (answers out_of_order_trace)) init.
Proof.
  eexists. split; [reflexivity|].
  apply (C1_applied_in_completion_order out_of_order_trace); reflexivity.
Defined.

(** The three chunks of the spec's scenario, completed in the order 1, 0, 2:
    the buffer is not the one of the spoken order. *)
Lemma C1_counterexample :
  exists p,
    exec out_of_order_trace start = Some p
    /\ submitted p = [] /\ scheduled_calls p = []
    /\ submissions out_of_order_trace = hello_stop_world
    /\ buffer (document p) = ".  hello world"
    /\ buffer (applied_in_order hello_stop_world) = "Hello.  world"
    /\ buffer (document p) <> buffer (applied_in_order (submissions out_of_order_trace)).
Proof.
  eexists. split; [reflexivity|]. vm_compute. repeat split; congruence.
Qed.

(** ** The capitalisation flag *)

Lemma capitalize_next_append_text text s :
  capitalize_next s = false -> capitalize_next (append_text text s) = false.
Proof.
  intros H. unfold append_text. simpl. rewrite H. by destruct (_ && _).
Qed.

Lemma capitalize_next_scratch_that s :
  capitalize_next (scratch_that s) = capitalize_next s.
Proof.
  unfold scratch_that. destruct (last (appended_chunks s)); [|done].
  by destruct (Text.tag_ranges _ _) as [|[a b] ?].
Qed.

Lemma capitalize_next_delete_last_word s :
  capitalize_next (delete_last_word s) = capitalize_next s.
Proof. unfold delete_last_word. by destruct (is_empty _). Qed.

Lemma capitalize_next_run_action yes a s :
  capitalize_next (run_action yes a s) = capitalize_next s.
Proof.
  destruct a; simpl; try done.
  - apply capitalize_next_delete_last_word.
  - apply capitalize_next_scratch_that.
  - by destruct yes.
  - by destruct yes.
Qed.

Lemma capitalize_next_run_scheduled yes call s :
  capitalize_next s = false -> capitalize_next (run_scheduled yes call s) = false.
Proof.
  intros H. destruct call as [text|message]; simpl; [|done].
  unfold handle_recognized_text. destruct (is_empty _); [done|].
  destruct (lookup_command _ _).
  - by rewrite capitalize_next_run_action.
  - by apply capitalize_next_append_text.
Qed.

Lemma capitalize_next_run_all calls : forall s,
  capitalize_next s = false -> capitalize_next (run_all calls s) = false.
Proof.
  induction calls as [|[call yes] calls IH]; intros s H; simpl; [done|].
  by apply IH, capitalize_next_run_scheduled.
Qed.

(** What [append_text] writes when the flag is down. *)
Lemma append_text_buffer text s :
  capitalize_next s = false ->
  buffer (append_text text s)
  = buffer s +:+ gap (buffer s)
    +:+ (if is_empty (buffer s) || ends_in_terminator (buffer s)
         then Str.upper_first text else text).
Proof.
  intros H. unfold append_text, buffer, gap, ends_in_terminator, Text.get.
  simpl. rewrite H. simpl.
  destruct (is_empty _ || last_in ".!?" _); simpl; [|done].
  by destruct text.
Qed.

Lemma append_text_flag text s :
  capitalize_next (append_text text s) = capitalize_next s && is_empty text.
Proof.
  unfold append_text. simpl.
  destruct (capitalize_next s), text; simpl; try done.
  all: by destruct (is_empty _ || last_in ".!?" _).
Qed.

(** What [append_text] writes, whatever the flag. *)
Lemma append_text_buffer_any text s :
  buffer (append_text text s)
  = buffer s +:+ gap (buffer s)
    +:+ (if capitalize_next s || is_empty (buffer s) || ends_in_terminator (buffer s)
         then Str.upper_first text else text).
Proof.
  unfold append_text, buffer, gap, ends_in_terminator, Text.get. simpl.
  destruct (capitalize_next s || is_empty _ || last_in ".!?" _); simpl; [|done].
  by destruct text.
Qed.

Lemma not_blank_not_empty text :
  is_empty (Str.strip text) = false -> is_empty text = false.
Proof. by destruct text. Qed.

(** C2, as the code has it: a literal-text append does not recompute the
    flag from the buffer, it uses it up.  After the append of a recognized
    text [capitalize_next] is false, whatever the buffer now ends in; the
    first character of the text is uppercased exactly when, before the
    append, the flag was up, or the buffer was empty, or the buffer's last
    character was one of . ! ? *)
Theorem C2_append_uses_up_flag yes text s :
  is_empty (Str.strip text) = false ->
  lookup_command (cleaned text) commands = None ->
  capitalize_next (handle_recognized_text yes text s) = false
  /\ buffer (handle_recognized_text yes text s)
     = buffer s +:+ gap (buffer s)
       +:+ (if capitalize_next s || is_empty (buffer s)
               || ends_in_terminator (buffer s)
            then Str.upper_first text else text).
Proof.
  intros Hblank Hliteral. unfold handle_recognized_text. rewrite Hblank, Hliteral.
  split; [|apply append_text_buffer_any].
  rewrite append_text_flag, (not_blank_not_empty _ Hblank). apply andb_false_r.
Qed.

Lemma C2_append_uses_up_flag_witness :
  capitalize_next (handle_recognized_text false "done." (with_capitalize_next true init))
  = false
  /\ buffer (handle_recognized_text false "next"
               (handle_recognized_text false "done." (with_capitalize_next true init)))
     = "Done. Next".
Proof.
  split.
  - apply (proj1 (C2_append_uses_up_flag false "done." (with_capitalize_next true init)
                    eq_refl eq_refl)).
  - rewrite (proj2 (C2_append_uses_up_flag false "next"
                      (handle_recognized_text false "done." (with_capitalize_next true init))
                      eq_refl eq_refl)).
    reflexivity.
Defined.

(** After the literal append of "done." the buffer ends in a full stop and
    the flag is false. *)
Lemma C2_counterexample :
  buffer (handle_recognized_text false "done." init) = "Done."
  /\ ~ (capitalize_next (handle_recognized_text false "done." init) = true
        <-> ends_in_terminator (buffer (handle_recognized_text false "done." init)) = true).
Proof.
  split; [reflexivity|]. vm_compute. intros [_ H]. by specialize (H eq_refl).
Qed.

(** ** Undo: [scratch_that] and the tags it looks for *)

(** Nothing in the source tags text ([tag_add] is never called, and
    [insert] is never given a tag list), so every operation keeps an untagged
    widget untagged. *)
Lemma tags_delete a b w : Text.tags w = ∅ -> Text.tags (Text.delete a b w) = ∅.
Proof.
  intros H. unfold Text.delete. destruct (a <? b); [|done].
  simpl. rewrite H. apply fmap_empty.
Qed.

Lemma tags_append_text text s :
  Text.tags (text_area (append_text text s)) = Text.tags (text_area s).
Proof. done. Qed.

Lemma tags_scratch_that s :
  Text.tags (text_area s) = ∅ -> Text.tags (text_area (scratch_that s)) = ∅.
Proof.
  intros H. unfold scratch_that. destruct (last (appended_chunks s)) as [tag|]; [|done].
  unfold Text.tag_ranges. simpl. by rewrite H, lookup_empty.
Qed.

Lemma tags_delete_last_word s :
  Text.tags (text_area s) = ∅ -> Text.tags (text_area (delete_last_word s)) = ∅.
Proof.
  intros H. unfold delete_last_word. destruct (is_empty _); [done|].
  simpl. by apply tags_delete.
Qed.

Lemma tags_run_action yes a s :
  Text.tags (text_area s) = ∅ -> Text.tags (text_area (run_action yes a s)) = ∅.
Proof.
  intros H. destruct a; simpl; try done.
  - by apply tags_delete_last_word.
  - by apply tags_scratch_that.
  - destruct yes; [|done]. by apply tags_delete.
  - destruct yes; [|done]. by apply tags_delete.
Qed.

Lemma tags_run_scheduled yes call s :
  Text.tags (text_area s) = ∅ -> Text.tags (text_area (run_scheduled yes call s)) = ∅.
Proof.
  intros H. destruct call as [text|message]; simpl; [|done].
  unfold handle_recognized_text. destruct (is_empty _); [done|].
  destruct (lookup_command _ _); [by apply tags_run_action|done].
Qed.

Lemma tags_run_all calls : forall s,
  Text.tags (text_area s) = ∅ -> Text.tags (text_area (run_all calls s)) = ∅.
Proof.
  induction calls as [|[call yes] calls IH]; intros s H; simpl; [done|].
  by apply IH, tags_run_scheduled.
Qed.

(** On a widget without tags, undo pops the log and leaves the text alone. *)
Lemma scratch_that_untagged s tag :
  Text.tags (text_area s) = ∅ ->
  last (appended_chunks s) = Some tag ->
  scratch_that s
  = update_status "No tagged text found."
      (with_appended_chunks (removelast (appended_chunks s)) s).
Proof.
  intros Htags Hlast. unfold scratch_that. rewrite Hlast.
  unfold Text.tag_ranges. simpl. by rewrite Htags, lookup_empty.
Qed.

Lemma scratch_that_empty s :
  appended_chunks s = [] -> scratch_that s = update_status "Nothing to scratch." s.
Proof. intros H. unfold scratch_that. by rewrite H. Qed.

(** C3, on the code: after the literal append of "hello" the buffer is
    "Hello" and the log holds one record; "scratch that" then pops the
    record, finds no tagged text, and the buffer is still "Hello". *)
Theorem C3_scratch_that_keeps_hello :
  buffer (handle_recognized_text false "hello" init) = "Hello"
  /\ appended_chunks (handle_recognized_text false "hello" init) = ["chunk_0"]
  /\ buffer (handle_recognized_text false "scratch that"
               (handle_recognized_text false "hello" init)) = "Hello"
  /\ appended_chunks (handle_recognized_text false "scratch that"
                        (handle_recognized_text false "hello" init)) = []
  /\ status_label (handle_recognized_text false "scratch that"
                     (handle_recognized_text false "hello" init))
     = ["Status: No tagged text found."; "Status: Idle"].
Proof. vm_compute. repeat split. Qed.

(** C5: with an empty log, any number of undos leaves the text widget and
    the log as they were, and each one reports "Nothing to scratch." *)
Theorem C5_scratch_that_empty_log s n :
  appended_chunks s = [] ->
  text_area (Nat.iter n scratch_that s) = text_area s
  /\ appended_chunks (Nat.iter n scratch_that s) = []
  /\ status_label (Nat.iter n scratch_that s)
     = replicate n "Status: Nothing to scratch." ++ status_label s.
Proof.
  intros Hempty. induction n as [|n (Htext & Hlog & Hstatus)]; simpl; [done|].
  rewrite (scratch_that_empty _ Hlog). unfold update_status. simpl.
  by rewrite Htext, Hlog, Hstatus.
Qed.

Lemma C5_scratch_that_empty_log_witness :
  appended_chunks init = []
  /\ text_area (Nat.iter 2 scratch_that init) = text_area init
  /\ status_label (Nat.iter 2 scratch_that init)
     = ["Status: Nothing to scratch."; "Status: Nothing to scratch."; "Status: Idle"].
Proof.
  split; [reflexivity|].
  destruct (C5_scratch_that_empty_log init 2 eq_refl) as (Htext & _ & Hstatus).
  split; [exact Htext | exact Hstatus].
Defined.

(** C7, on the code: in every state the pipeline reaches, an undo right
    after [append_text] leaves the appended text in the buffer; from the
    empty document, appending "hello" and undoing gives "Hello", not the
    empty snapshot. *)
Theorem C7_append_then_undo_keeps_text calls text :
  buffer (scratch_that (append_text text (run_all calls init)))
  = buffer (append_text text (run_all calls init))
  /\ buffer init = ""
  /\ buffer (scratch_that (append_text "hello" init)) = "Hello".
Proof.
  split; [|by vm_compute].
  erewrite scratch_that_untagged; [done | |].
  - rewrite tags_append_text. by apply tags_run_all.
  - simpl. apply last_snoc.
Qed.

(** C10: with a non-empty log, undo removes exactly the newest record; when
    the widget has no range for that record's tag, the widget is left as it
    was and the status is "No tagged text found." *)
Theorem C10_scratch_that_pops_one s tag :
  last (appended_chunks s) = Some tag ->
  appended_chunks (scratch_that s) = removelast (appended_chunks s)
  /\ appended_chunks s = appended_chunks (scratch_that s) ++ [tag]
  /\ (Text.tag_ranges tag (text_area s) = [] ->
      text_area (scratch_that s) = text_area s
      /\ status_label (scratch_that s)
         = "Status: No tagged text found." :: status_label s).
Proof.
  intros Hlast.
  assert (appended_chunks (scratch_that s) = removelast (appended_chunks s)) as Hpop.
  { unfold scratch_that. rewrite Hlast. simpl.
    by destruct (Text.tag_ranges _ _) as [|[a b] ?]. }
  split; [done|]. split.
  - rewrite Hpop. apply last_Some in Hlast as [l' ->].
    by rewrite removelast_last.
  - intros Hnone. unfold scratch_that. rewrite Hlast. simpl.
    unfold with_appended_chunks, Text.tag_ranges in *. simpl. by rewrite Hnone.
Qed.

Lemma C10_scratch_that_pops_one_witness :
  last (appended_chunks (handle_recognized_text false "hello" init)) = Some "chunk_0"
  /\ Text.tag_ranges "chunk_0" (text_area (handle_recognized_text false "hello" init)) = []
  /\ appended_chunks (scratch_that (handle_recognized_text false "hello" init)) = []
  /\ buffer (scratch_that (handle_recognized_text false "hello" init)) = "Hello".
Proof.
  split; [reflexivity|]. split; [reflexivity|].
  destruct (C10_scratch_that_pops_one
              (handle_recognized_text false "hello" init) "chunk_0" eq_refl)
    as (Hpop & _ & Hkeep).
  split; [exact Hpop|].
  unfold buffer. destruct (Hkeep eq_refl) as [-> _]. reflexivity.
Defined.

(** Every non-empty log the pipeline builds is in that case: the text stays. *)
Lemma scratch_that_reached calls tag :
  last (appended_chunks (run_all calls init)) = Some tag ->
  text_area (scratch_that (run_all calls init)) = text_area (run_all calls init).
Proof.
  intros Hlast. erewrite scratch_that_untagged; [done | | done].
  by apply tags_run_all.
Qed.

(** ** Word deletion: [delete_last_word] *)

Lemma substring_none n : forall s, String.substring n 0 s = "".
Proof. induction n as [|n IH]; intros [|c s]; simpl; auto. Qed.

Lemma content_delete_all w : Text.content (Text.delete_all w) = "".
Proof.
  unfold Text.delete_all, Text.delete.
  destruct (Text.content w) as [|c s] eqn:Hc; simpl; [done|].
  unfold Str.cut. simpl. by rewrite Nat.sub_diag, substring_none.
Qed.

Lemma append_nil_l b : "" +:+ b = b.
Proof. reflexivity. Qed.

Lemma append_cons c a b : String c a +:+ b = String c (a +:+ b).
Proof. reflexivity. Qed.

Lemma append_empty_r s : s +:+ "" = s.
Proof. induction s as [|c s IH]; [done|]. by rewrite append_cons, IH. Qed.

Lemma mem_append c a b : Str.mem c (a +:+ b) = Str.mem c a || Str.mem c b.
Proof.
  induction a as [|d a IH]; [done|].
  rewrite append_cons. simpl. by destruct (Ascii.eqb c d).
Qed.

Lemma mem_string_of_list c l :
  c ∉ l -> Str.mem c (string_of_list_ascii l) = false.
Proof.
  induction l as [|d l IH]; intros Hnot; simpl; [done|].
  destruct (Ascii.eqb c d) eqn:Heq.
  - apply Ascii.eqb_eq in Heq as ->. exfalso. apply Hnot. by left.
  - apply IH. intros Hin. apply Hnot. by right.
Qed.

Lemma not_elem_of_rev {A} (x : A) l : x ∉ l -> x ∉ rev l.
Proof.
  intros Hnot Hin. apply Hnot. apply list_elem_of_In, in_rev.
  by apply list_elem_of_In.
Qed.

(** No word of [split] holds a whitespace character. *)
Lemma split_from_mem c :
  Char.isspace c = true ->
  forall s word, c ∉ word -> Forall (fun w => Str.mem c w = false) (Str.split_from word s).
Proof.
  intros Hspace. induction s as [|d s IH]; intros word Hnot; simpl.
  - destruct word as [|e word]; [constructor|].
    constructor; [|constructor]. apply mem_string_of_list.
    by apply not_elem_of_rev.
  - destruct (Char.isspace d) eqn:Hd.
    + destruct word as [|e word]; [by apply IH, not_elem_of_nil|].
      constructor; [|by apply IH, not_elem_of_nil].
      apply mem_string_of_list. by apply not_elem_of_rev.
    + apply IH. apply not_elem_of_cons. split; [congruence|done].
Qed.

Lemma split_mem c s :
  Char.isspace c = true -> Forall (fun w => Str.mem c w = false) (Str.split s).
Proof. intros H. by apply split_from_mem, not_elem_of_nil. Qed.

(** Every word of [split] has at least one character. *)
Lemma split_from_nonempty s : forall word,
  Forall (fun w => w <> "") (Str.split_from word s).
Proof.
  assert (forall e word, string_of_list_ascii (rev (e :: word)) <> "") as Hne.
  { intros e word H. apply (f_equal list_ascii_of_string) in H.
    rewrite list_ascii_of_string_of_list_ascii in H. simpl in H.
    by destruct (rev word). }
  induction s as [|d s IH]; intros word; simpl.
  - destruct word as [|e word]; [constructor|]. constructor; [apply Hne|constructor].
  - destruct (Char.isspace d); [|apply IH].
    destruct word as [|e word]; [apply IH|]. constructor; [apply Hne|apply IH].
Qed.

Lemma join_mem c sep ws :
  Str.mem c sep = false ->
  Forall (fun w => Str.mem c w = false) ws ->
  Str.mem c (Str.join sep ws) = false.
Proof.
  intros Hsep. induction 1 as [|w ws Hw Hws IH]; simpl; [done|].
  destruct ws as [|w' ws]; [done|].
  by rewrite !mem_append, Hw, Hsep, IH.
Qed.

Lemma Forall_drop_last {A} (P : A -> Prop) l : Forall P l -> Forall P (Str.drop_last l).
Proof.
  unfold Str.drop_last. induction 1 as [|x l Hx Hl IH]; simpl; [constructor|].
  destruct l; [constructor|]. by constructor.
Qed.

Lemma is_empty_false s : s <> "" -> is_empty s = false.
Proof. by destruct s. Qed.

Lemma buffer_delete_last_word s :
  buffer s <> "" ->
  buffer (delete_last_word s) = Str.join " " (Str.drop_last (Str.split (buffer s))).
Proof.
  intros Hne. unfold delete_last_word, buffer, Text.get in *.
  rewrite (is_empty_false _ Hne). simpl. by rewrite content_delete_all.
Qed.

(** C8: on a non-empty buffer, "delete last word" replaces the whole text
    by the whitespace-separated words of the current text, without the
    last one, joined with single spaces; the undo log is not touched. *)
Theorem C8_delete_last_word s :
  buffer s <> "" ->
  buffer (delete_last_word s) = Str.join " " (Str.drop_last (Str.split (buffer s)))
  /\ Forall (fun w => w <> "" /\ Str.mem " " w = false) (Str.split (buffer s))
  /\ appended_chunks (delete_last_word s) = appended_chunks s.
Proof.
  intros Hne. split; [by apply buffer_delete_last_word|]. split.
  - apply Forall_and. split; [apply split_from_nonempty|by apply split_mem].
  - unfold delete_last_word. by destruct (is_empty _).
Qed.

Lemma C8_delete_last_word_witness :
  buffer (with_text_area (Text.mk "testing one two" ∅) init) <> ""
  /\ buffer (delete_last_word (with_text_area (Text.mk "testing one two" ∅) init))
     = "testing one".
Proof.
  split; [discriminate|].
  rewrite (proj1 (C8_delete_last_word
                    (with_text_area (Text.mk "testing one two" ∅) init)
                    ltac:(discriminate))).
  reflexivity.
Defined.

(** C9: on a non-empty buffer, the text "delete last word" leaves holds no
    whitespace character but the space, hence no newline. *)
Theorem C9_delete_last_word_no_newline s :
  buffer s <> "" ->
  Str.mem Char.newline (buffer (delete_last_word s)) = false
  /\ forall c, Char.isspace c = true -> c <> " "%char ->
       Str.mem c (buffer (delete_last_word s)) = false.
Proof.
  intros Hne.
  assert (forall c, Char.isspace c = true -> c <> " "%char ->
            Str.mem c (buffer (delete_last_word s)) = false) as Hall.
  { intros c Hspace Hc. rewrite buffer_delete_last_word by done.
    apply join_mem.
    - simpl. by apply Ascii.eqb_neq in Hc as ->.
    - by apply Forall_drop_last, split_mem. }
  split; [|done]. by apply Hall.
Qed.

Lemma C9_delete_last_word_no_newline_witness :
  buffer (with_text_area (Text.mk ("one" +:+ Str.nl +:+ Str.nl +:+ "two three") ∅) init) <> ""
  /\ buffer (delete_last_word
               (with_text_area (Text.mk ("one" +:+ Str.nl +:+ Str.nl +:+ "two three") ∅) init))
     = "one two"
  /\ Str.mem Char.newline
       (buffer (delete_last_word
                  (with_text_area (Text.mk ("one" +:+ Str.nl +:+ Str.nl +:+ "two three") ∅) init)))
     = false.
Proof.
  split; [discriminate|]. split; [reflexivity|].
  apply (proj1 (C9_delete_last_word_no_newline
                  (with_text_area (Text.mk ("one" +:+ Str.nl +:+ Str.nl +:+ "two three") ∅) init)
                  ltac:(discriminate))).
Defined.

(** ** Results with nothing to apply *)




(** ** Command phrases, their case and their punctuation *)

Lemma punctuation_not_space c :
  Str.mem c Str.punctuation = true -> Char.isspace c = false.
Proof. revert c. intros [[] [] [] [] [] [] [] []]; vm_compute; congruence. Qed.

Lemma isspace_lower c : Char.isspace (Char.lower c) = Char.isspace c.
Proof. revert c. intros [[] [] [] [] [] [] [] []]; reflexivity. Qed.

Lemma lstrip_head s :
  Str.lstrip s = "" \/ exists c s', Str.lstrip s = String c s' /\ Char.isspace c = false.
Proof.
  induction s as [|c s IH]; simpl; [by left|].
  destruct (Char.isspace c) eqn:Hc; [done|]. right. eauto.
Qed.

Lemma rstrip_head c s : Char.isspace c = false -> Str.rstrip (String c s) <> "".
Proof. intros Hc. simpl. destruct (Str.rstrip s); by rewrite ?Hc. Qed.

(** A text is blank exactly when nothing is left of it on the left. *)
Lemma strip_blank s : is_empty (Str.strip s) = is_empty (Str.lstrip s).
Proof.
  unfold Str.strip. destruct (lstrip_head s) as [->|(c & s' & -> & Hc)]; [done|].
  pose proof (rstrip_head c s' Hc). by destruct (Str.rstrip _).
Qed.

Lemma lstrip_lower_blank s :
  is_empty (Str.lstrip (Str.lower s)) = is_empty (Str.lstrip s).
Proof.
  induction s as [|c s IH]; simpl; [done|].
  rewrite isspace_lower. by destruct (Char.isspace c).
Qed.

Lemma strip_lower_blank s :
  is_empty (Str.strip (Str.lower s)) = is_empty (Str.strip s).
Proof. by rewrite !strip_blank, lstrip_lower_blank. Qed.

Lemma rstrip_append a b :
  b <> "" -> Str.rstrip b = b -> Str.rstrip (a +:+ b) = a +:+ b.
Proof.
  intros Hne Hb. induction a as [|c a IH]; [done|].
  rewrite append_cons. simpl. rewrite IH.
  destruct (a +:+ b) eqn:Hab; [|done].
  destruct a; [by rewrite append_nil_l in Hab|by rewrite append_cons in Hab].
Qed.

Lemma rstrip_all_in s :
  all_in Str.punctuation s = true -> Str.rstrip s = s.
Proof.
  induction s as [|c s IH]; simpl; [done|].
  intros [Hc Hs]%andb_prop. rewrite (IH Hs).
  destruct s; [|done]. by rewrite (punctuation_not_space c Hc).
Qed.

Lemma translate_delete_append deleted a b :
  Str.translate_delete deleted (a +:+ b)
  = Str.translate_delete deleted a +:+ Str.translate_delete deleted b.
Proof.
  induction a as [|c a IH]; [done|].
  rewrite append_cons. simpl.
  destruct (Str.mem c deleted); by rewrite IH, ?append_cons.
Qed.

Lemma translate_delete_all_in deleted s :
  all_in deleted s = true -> Str.translate_delete deleted s = "".
Proof.
  induction s as [|c s IH]; simpl; [done|].
  intros [-> Hs]%andb_prop. by apply IH.
Qed.

Lemma commands_plain : Forall (fun entry => plain_phrase (fst entry)) commands.
Proof. unfold commands. repeat constructor; discriminate. Qed.

Lemma lookup_command_In key table a :
  lookup_command key table = Some a -> In (key, a) table.
Proof.
  induction table as [|[k b] table IH]; simpl; [done|].
  destruct (String.eqb key k) eqn:Hk.
  - apply String.eqb_eq in Hk as ->. intros [= ->]. by left.
  - intros H. right. by apply IH.
Qed.

Lemma lookup_command_plain key a :
  lookup_command key commands = Some a -> plain_phrase key.
Proof.
  intros H%lookup_command_In. pose proof commands_plain as Hall.
  rewrite List.Forall_forall in Hall. exact (Hall _ H).
Qed.

(** A phrase with punctuation around it is untouched by [strip]. *)
Lemma strip_decorated before phrase after :
  plain_phrase phrase ->
  all_in Str.punctuation before = true ->
  all_in Str.punctuation after = true ->
  Str.strip (before +:+ phrase +:+ after) = before +:+ phrase +:+ after.
Proof.
  intros (Hne & Hl & Hr & _) Hbefore Hafter. unfold Str.strip.
  assert (Str.lstrip (before +:+ phrase +:+ after) = before +:+ phrase +:+ after) as ->.
  { destruct before as [|c before].
    - rewrite append_nil_l.
      destruct phrase as [|c phrase]; [done|]. rewrite append_cons. simpl in *.
      destruct (Char.isspace c); [|done].
      exfalso. apply (f_equal String.length) in Hl. simpl in Hl.
      assert (forall s, String.length (Str.lstrip s) <= String.length s) as Hle.
      { induction s as [|d s IH]; simpl; [lia|]. destruct (Char.isspace d); simpl; lia. }
      specialize (Hle phrase). lia.
    - simpl in Hbefore. apply andb_prop in Hbefore as [Hc _].
      rewrite append_cons. simpl. by rewrite (punctuation_not_space c Hc). }
  apply rstrip_append.
  - destruct phrase; [done|]. by rewrite append_cons.
  - destruct after as [|c after].
    + by rewrite append_empty_r.
    + apply rstrip_append; [discriminate|]. by apply rstrip_all_in.
Qed.

Lemma cleaned_decorated text before phrase after :
  plain_phrase phrase ->
  all_in Str.punctuation before = true ->
  all_in Str.punctuation after = true ->
  Str.lower text = before +:+ phrase +:+ after ->
  cleaned text = phrase /\ is_empty (Str.strip text) = false.
Proof.
  intros Hplain Hbefore Hafter Hlower. split.
  - unfold cleaned. rewrite Hlower, strip_decorated by done.
    rewrite !translate_delete_append.
    rewrite (translate_delete_all_in _ before), (translate_delete_all_in _ after) by done.
    destruct Hplain as (_ & _ & _ & ->). by rewrite append_nil_l, append_empty_r.
  - rewrite <- strip_lower_blank, Hlower, strip_decorated by done.
    destruct Hplain as (Hne & _). destruct before; [|by rewrite append_cons].
    rewrite append_nil_l. destruct phrase; [done|]. by rewrite append_cons.
Qed.

(** C4, as the code has it: the text is lowercased, then trimmed, then
    stripped of punctuation, and the command of the table is run exactly
    when the result is one of its phrases.  Hence a command phrase in any
    letter case, with any punctuation right before and right after it, runs
    the command of the plain phrase. *)
Theorem C4_command_variants yes text s phrase a before after :
  lookup_command phrase commands = Some a ->
  all_in Str.punctuation before = true ->
  all_in Str.punctuation after = true ->
  Str.lower text = before +:+ phrase +:+ after ->
  cleaned text = Str.translate_delete Str.punctuation (Str.strip (Str.lower text))
  /\ cleaned text = phrase
  /\ handle_recognized_text yes text s = run_action yes a s
  /\ handle_recognized_text yes phrase s = run_action yes a s
  /\ (forall other,
        handle_recognized_text yes other s
        = if is_empty (Str.strip other) then s
          else match lookup_command (cleaned other) commands with
               | Some b => run_action yes b s
               | None => append_text other s
               end).
Proof.
  intros Hlookup Hbefore Hafter Hlower.
  pose proof (lookup_command_plain _ _ Hlookup) as Hplain.
  destruct (cleaned_decorated text before phrase after) as [Hclean Hblank]; try done.
  assert (forall t, cleaned t = phrase -> is_empty (Str.strip t) = false ->
            handle_recognized_text yes t s = run_action yes a s) as Hrun.
  { intros t Ht Hb. unfold handle_recognized_text. by rewrite Hb, Ht, Hlookup. }
  repeat split; try done.
  - by apply Hrun.
  - destruct (cleaned_decorated phrase "" phrase "") as [Hc Hb]; try done.
    + rewrite append_empty_r, append_nil_l.
      destruct Hplain as (_ & _ & _ & Hnopunct).
      clear -Hnopunct Hlookup.
      apply lookup_command_In in Hlookup. unfold commands in Hlookup. simpl in Hlookup.
      repeat (destruct Hlookup as [[= <- <-]|Hlookup]; [reflexivity|]). done.
    + by apply Hrun.
Qed.

Lemma C4_command_variants_witness :
  lookup_command "full stop" commands = Some (Insert ". ")
  /\ all_in Str.punctuation "" = true
  /\ all_in Str.punctuation "." = true
  /\ Str.lower "Full Stop." = "" +:+ "full stop" +:+ "."
  /\ handle_recognized_text false "Full Stop." init
     = handle_recognized_text false "full stop" init.
Proof.
  repeat (split; [reflexivity|]).
  destruct (C4_command_variants false "Full Stop." init "full stop" (Insert ". ") "" "."
              eq_refl eq_refl eq_refl eq_refl) as (_ & _ & -> & -> & _).
  reflexivity.
Defined.

(** "full stop ." : with the spec's order (punctuation first, then trim) it
    is the phrase "full stop"; the code trims first, keeps the blank, and
    appends the text as dictation. *)
Lemma C4_counterexample :
  lookup_command (spec_normalize "full stop .") commands = Some (Insert ". ")
  /\ lookup_command (cleaned "full stop .") commands = None
  /\ buffer (run_action false (Insert ". ") init) = ". "
  /\ buffer (handle_recognized_text false "full stop ." init) = "Full stop ."
  /\ handle_recognized_text false "full stop ." init <> run_action false (Insert ". ") init.
Proof.
  repeat (split; [reflexivity|]).
  intros H. apply (f_equal buffer) in H. vm_compute in H. discriminate H.
Qed.

(** ** The undo log over a whole session *)

Lemma chunk_names_succ n :
  chunk_names (S n) = chunk_names n ++ ["chunk_" +:+ Str.of_nat n].
Proof. unfold chunk_names. by rewrite seq_S, map_app. Qed.

Lemma length_chunk_names n : length (chunk_names n) = n.
Proof. unfold chunk_names. by rewrite length_map, length_seq. Qed.

Lemma removelast_chunk_names n : removelast (chunk_names n) = chunk_names (pred n).
Proof.
  destruct n as [|n]; [done|]. rewrite chunk_names_succ. by rewrite removelast_last.
Qed.

Lemma log_named_append_text text s : log_named s -> log_named (append_text text s).
Proof.
  unfold log_named. intros H. simpl. rewrite length_app. simpl.
  rewrite Nat.add_1_r, chunk_names_succ. by rewrite <- H.
Qed.

Lemma log_named_removelast s :
  log_named s -> log_named (with_appended_chunks (removelast (appended_chunks s)) s).
Proof.
  unfold log_named. simpl. intros H. rewrite H at 1.
  rewrite removelast_chunk_names. f_equal.
  rewrite H at 2. rewrite removelast_chunk_names. by rewrite length_chunk_names.
Qed.

Lemma log_named_scratch_that s : log_named s -> log_named (scratch_that s).
Proof.
  intros H. unfold scratch_that. destruct (last (appended_chunks s)); [|done].
  pose proof (log_named_removelast s H) as H'.
  by destruct (Text.tag_ranges _ _) as [|[a b] ?].
Qed.

Lemma log_named_run_action yes a s : log_named s -> log_named (run_action yes a s).
Proof.
  intros H. destruct a; simpl; try done.
  - unfold delete_last_word. by destruct (is_empty _).
  - by apply log_named_scratch_that.
  - by destruct yes.
  - by destruct yes.
Qed.

Lemma log_named_run_scheduled yes call s :
  log_named s -> log_named (run_scheduled yes call s).
Proof.
  intros H. destruct call as [text|message]; simpl; [|done].
  unfold handle_recognized_text. destruct (is_empty _); [done|].
  destruct (lookup_command _ _).
  - by apply log_named_run_action.
  - by apply log_named_append_text.
Qed.

(** Throughout a session the undo log is chunk_0, chunk_1, ... in order: a
    record is named after its position, so the name an undo frees is the
    name the next literal text gets. *)
Theorem log_is_chunk_names calls :
  appended_chunks (run_all calls init)
  = chunk_names (length (appended_chunks (run_all calls init))).
Proof.
  change (log_named (run_all calls init)).
  assert (log_named init) as Hinit by done. revert Hinit. generalize init.
  induction calls as [|[call yes] calls IH]; intros s H; simpl; [done|].
  by apply IH, log_named_run_scheduled.
Qed.

Lemma length_log_scratch_that s :
  length (appended_chunks (scratch_that s)) = pred (length (appended_chunks s)).
Proof.
  unfold scratch_that. destruct (last (appended_chunks s)) as [tag|] eqn:Hlast.
  - assert (length (removelast (appended_chunks s)) = pred (length (appended_chunks s))) as H.
    { apply last_Some in Hlast as [l' ->].
      rewrite removelast_last, length_app. simpl. lia. }
    destruct (Text.tag_ranges _ _) as [|[a b] ?]; exact H.
  - apply last_None in Hlast. simpl. by rewrite Hlast.
Qed.

Lemma length_log_run_action yes a s :
  length (appended_chunks (run_action yes a s)) <= length (appended_chunks s).
Proof.
  destruct a; simpl; try done.
  - unfold delete_last_word. by destruct (is_empty _).
  - rewrite length_log_scratch_that. lia.
  - destruct yes; simpl; lia.
  - destruct yes; simpl; lia.
Qed.

(** One recognized text adds at most one record to the undo log, and it
    adds one exactly when the text is not blank and is not a command:
    commands never create a record. *)
Theorem log_grows_for_dictation_only yes text s :
  length (appended_chunks (handle_recognized_text yes text s))
    <= S (length (appended_chunks s))
  /\ (length (appended_chunks (handle_recognized_text yes text s))
        = S (length (appended_chunks s))
      <-> is_empty (Str.strip text) = false
          /\ lookup_command (cleaned text) commands = None).
Proof.
  unfold handle_recognized_text. destruct (is_empty (Str.strip text)).
  - split; [lia|]. split; [lia|]. by intros [? _].
  - destruct (lookup_command _ _) as [a|].
    + pose proof (length_log_run_action yes a s). split; [lia|].
      split; [lia|]. by intros [_ ?].
    + simpl. rewrite length_app. simpl. split; [lia|]. split; [done|lia].
Qed.

(** ** Words: [split] undoes [join] *)

Lemma no_space_of_mem w :
  (forall c, Char.isspace c = true -> Str.mem c w = false) -> no_space w = true.
Proof.
  induction w as [|d w IH]; intros H; simpl; [done|].
  destruct (Char.isspace d) eqn:Hd.
  - specialize (H d Hd). simpl in H. by rewrite Ascii.eqb_refl in H.
  - simpl. apply IH. intros c Hc. specialize (H c Hc). simpl in H.
    by destruct (Ascii.eqb c d).
Qed.

Lemma split_words s : Forall (fun w => w <> "" /\ no_space w = true) (Str.split s).
Proof.
  apply Forall_and. split; [apply split_from_nonempty|].
  apply Forall_forall. intros w Hw. apply no_space_of_mem. intros c Hc.
  pose proof (split_mem c s Hc) as Hall. rewrite Forall_forall in Hall. by apply Hall.
Qed.

(** Reading a whitespace-free word moves it, reversed, onto the run. *)
Lemma split_from_word w : forall word rest,
  no_space w = true ->
  Str.split_from word (w +:+ rest)
  = Str.split_from (rev (list_ascii_of_string w) ++ word) rest.
Proof.
  induction w as [|c w IH]; intros word rest Hw; [done|].
  simpl in Hw. apply andb_prop in Hw as [Hc Hw].
  rewrite append_cons. simpl. apply negb_true_iff in Hc. rewrite Hc.
  rewrite IH by done. by rewrite <- app_assoc.
Qed.

Lemma string_of_rev_rev w :
  string_of_list_ascii (rev (rev (list_ascii_of_string w) ++ [])) = w.
Proof. by rewrite app_nil_r, rev_involutive, string_of_list_ascii_of_string. Qed.

Lemma rev_word_nonempty w : w <> "" -> rev (list_ascii_of_string w) ++ [] <> [].
Proof.
  intros Hne H. apply Hne. rewrite app_nil_r in H.
  apply (f_equal (@rev ascii)) in H. rewrite rev_involutive in H. simpl in H.
  apply (f_equal string_of_list_ascii) in H.
  by rewrite string_of_list_ascii_of_string in H.
Qed.

Lemma split_from_end word :
  word <> [] -> Str.split_from word "" = [string_of_list_ascii (rev word)].
Proof. by destruct word. Qed.

Lemma split_from_blank word rest :
  word <> [] ->
  Str.split_from word (String " " rest)
  = string_of_list_ascii (rev word) :: Str.split_from [] rest.
Proof. by destruct word. Qed.

(** Words joined by single blanks split back into the same words. *)
Lemma split_join ws :
  Forall (fun w => w <> "" /\ no_space w = true) ws ->
  Str.split (Str.join " " ws) = ws.
Proof.
  unfold Str.split. induction 1 as [|w ws [Hne Hw] Hws IH]; [done|].
  pose proof (rev_word_nonempty w Hne) as Hrev.
  destruct ws as [|w' ws].
  - simpl. rewrite <- (append_empty_r w) at 1. rewrite split_from_word by done.
    rewrite split_from_end by done. by rewrite string_of_rev_rev.
  - change (Str.join " " (w :: w' :: ws)) with (w +:+ " " +:+ Str.join " " (w' :: ws)).
    rewrite split_from_word by done.
    change (" " +:+ Str.join " " (w' :: ws))
      with (String " " (Str.join " " (w' :: ws))).
    rewrite split_from_blank by done. rewrite string_of_rev_rev. f_equal. exact IH.
Qed.

Lemma delete_last_word_empty s : buffer s = "" -> delete_last_word s = s.
Proof. unfold buffer, delete_last_word. by intros ->. Qed.

(** "Delete last word" takes exactly the last word away: the words of the
    new text are the words of the old one without the last; on an empty
    buffer it does nothing. *)
Theorem delete_last_word_words s :
  Str.split (buffer (delete_last_word s)) = Str.drop_last (Str.split (buffer s))
  /\ (buffer s = "" -> delete_last_word s = s).
Proof.
  split; [|apply delete_last_word_empty].
  destruct (buffer s) as [|c b] eqn:Hb.
  - by rewrite delete_last_word_empty, Hb.
  - rewrite buffer_delete_last_word by (by rewrite Hb). rewrite Hb.
    apply split_join, Forall_drop_last, split_words.
Qed.

Lemma delete_last_word_split s :
  Str.split (buffer (delete_last_word s)) = Str.drop_last (Str.split (buffer s)).
Proof.
  destruct (buffer s) as [|c b] eqn:Hb.
  - by rewrite delete_last_word_empty, Hb.
  - rewrite buffer_delete_last_word by (by rewrite Hb). rewrite Hb.
    apply split_join, Forall_drop_last, split_words.
Qed.

Lemma drop_last_take {A} (l : list A) k :
  k <= length l -> Str.drop_last (take k l) = take (pred k) l.
Proof.
  unfold Str.drop_last. revert k. induction l as [|x l IH]; intros k Hk.
  - destruct k; [done | simpl in Hk; lia].
  - destruct k as [|k]; [done|]. simpl in *. destruct k as [|k]; [by destruct l|].
    destruct l as [|y l]; [simpl in Hk; lia|].
    specialize (IH (S k) ltac:(simpl in *; lia)). simpl in *. by rewrite IH.
Qed.

Lemma iter_delete_last_word_words s n :
  Str.split (buffer (Nat.iter n delete_last_word s))
  = take (length (Str.split (buffer s)) - n) (Str.split (buffer s)).
Proof.
  induction n as [|n IH]; simpl.
  - by rewrite Nat.sub_0_r, firstn_all.
  - rewrite delete_last_word_split, IH, drop_last_take by lia. f_equal. lia.
Qed.

(** Repeated "delete last word": after n of them the words left are the
    first ones, n fewer; once n reaches the number of words (and at least
    one was said) the document is empty. *)
Theorem delete_last_word_repeated s n :
  1 <= n ->
  Str.split (buffer (Nat.iter n delete_last_word s))
  = take (length (Str.split (buffer s)) - n) (Str.split (buffer s))
  /\ (length (Str.split (buffer s)) <= n ->
      buffer (Nat.iter n delete_last_word s) = "").
Proof.
  intros Hn. split; [apply iter_delete_last_word_words|].
  intros Hall. destruct n as [|n]; [lia|]. simpl.
  destruct (buffer (Nat.iter n delete_last_word s)) as [|c b] eqn:Hb.
  - by rewrite delete_last_word_empty.
  - rewrite buffer_delete_last_word by (by rewrite Hb).
    rewrite iter_delete_last_word_words.
    replace (length (Str.split (buffer s)) - n) with
      (if decide (length (Str.split (buffer s)) = S n) then 1 else 0)
      by (case_decide; lia).
    case_decide; [|done].
    by destruct (Str.split (buffer s)) as [|w [|w' ws]].
Qed.

Lemma delete_last_word_repeated_witness :
  1 <= 3
  /\ buffer (Nat.iter 3 delete_last_word
               (with_text_area (Text.mk "testing one two" ∅) init)) = "".
Proof.
  split; [lia|].
  apply (proj2 (delete_last_word_repeated
                  (with_text_area (Text.mk "testing one two" ∅) init) 3 ltac:(lia))).
  vm_compute. lia.
Defined.

(** ** What follows a spoken punctuation mark *)

Lemma last_append a b : b <> "" -> Str.last (a +:+ b) = Str.last b.
Proof.
  intros Hb. induction a as [|c a IH]; [done|].
  rewrite append_cons. simpl. rewrite IH.
  destruct (a +:+ b) eqn:Hab; [|done].
  destruct a; [by rewrite append_nil_l in Hab | by rewrite append_cons in Hab].
Qed.

Lemma last_in_append chars a b :
  b <> "" -> last_in chars (a +:+ b) = last_in chars b.
Proof. intros Hb. unfold last_in. by rewrite last_append. Qed.

Lemma is_empty_append a b : b <> "" -> is_empty (a +:+ b) = false.
Proof.
  intros Hb. destruct a; [|by rewrite append_cons].
  rewrite append_nil_l. by destruct b.
Qed.

Lemma append_assoc a b c : (a +:+ b) +:+ c = a +:+ b +:+ c.
Proof. induction a as [|d a IH]; [done|]. by rewrite !append_cons, IH. Qed.

Lemma lower_phrase phrase a :
  lookup_command phrase commands = Some a -> Str.lower phrase = phrase.
Proof.
  intros H%lookup_command_In. unfold commands in H. simpl in H.
  repeat (destruct H as [[= <- <-]|H]; [reflexivity|]). done.
Qed.

(** A phrase of the table, said as it is written, runs its command. *)
Lemma handle_phrase yes phrase a s :
  lookup_command phrase commands = Some a ->
  handle_recognized_text yes phrase s = run_action yes a s.
Proof.
  intros Hlookup.
  destruct (cleaned_decorated phrase "" phrase "") as [Hc Hb]; try done.
  - by apply (lookup_command_plain _ a).
  - by rewrite append_empty_r, append_nil_l, (lower_phrase _ a).
  - unfold handle_recognized_text. by rewrite Hb, Hc, Hlookup.
Qed.

(** No token of the table is empty or ends a sentence. *)
Lemma inserted_token phrase chars :
  lookup_command phrase commands = Some (Insert chars) ->
  chars <> "" /\ last_in ".!?" chars = false.
Proof.
  intros H%lookup_command_In. unfold commands in H. simpl in H.
  repeat (destruct H as [[= <- <-]|H]; [by vm_compute|]);
  repeat (destruct H as [[=]|H]); done.
Qed.

(** Dictation right after a command that inserts a token (a punctuation
    mark, a quote, a parenthesis, a line break): the text is written as it
    was recognized, never capitalised, after the token and one more blank;
    the blank is left out only after a line break. *)
Theorem dictation_after_token yes yes' phrase chars text s :
  lookup_command phrase commands = Some (Insert chars) ->
  capitalize_next s = false ->
  is_empty (Str.strip text) = false ->
  lookup_command (cleaned text) commands = None ->
  buffer (handle_recognized_text yes' text (handle_recognized_text yes phrase s))
  = buffer s +:+ chars +:+ (if last_in Str.nl chars then "" else " ") +:+ text.
Proof.
  intros Hphrase Hflag Hblank Hliteral.
  destruct (inserted_token _ _ Hphrase) as [Hne Hend].
  rewrite (handle_phrase _ _ _ _ Hphrase).
  unfold handle_recognized_text. rewrite Hblank, Hliteral.
  rewrite append_text_buffer by done.
  change (buffer (run_action yes (Insert chars) s)) with (buffer s +:+ chars).
  unfold gap, ends_in_terminator.
  rewrite is_empty_append, !last_in_append, Hend by done.
  cbn [negb andb orb]. rewrite append_assoc.
  by destruct (last_in Str.nl chars).
Qed.

Lemma dictation_after_token_witness :
  lookup_command "full stop" commands = Some (Insert ". ")
  /\ buffer (handle_recognized_text false "world"
               (handle_recognized_text false "full stop"
                  (handle_recognized_text false "hello" init)))
     = "Hello.  world".
Proof.
  split; [reflexivity|].
  rewrite (dictation_after_token false false "full stop" ". " "world"
             (handle_recognized_text false "hello" init)); reflexivity.
Defined.

(** ** Texts that are not commands *)

Lemma lower_punctuation c : Str.mem c Str.punctuation = true -> Char.lower c = c.
Proof. revert c. intros [[] [] [] [] [] [] [] []]; vm_compute; congruence. Qed.

Lemma lower_all_in text :
  all_in Str.punctuation text = true -> Str.lower text = text.
Proof.
  induction text as [|c text IH]; simpl; [done|].
  intros [Hc Ht]%andb_prop. by rewrite (lower_punctuation c Hc), IH.
Qed.

Lemma lstrip_all_in text :
  all_in Str.punctuation text = true -> Str.lstrip text = text.
Proof.
  destruct text as [|c text]; simpl; [done|].
  intros [Hc _]%andb_prop. by rewrite (punctuation_not_space c Hc).
Qed.

(** A text made of punctuation only ("...", "?!") is never a command: it is
    appended to the document as dictation. *)
Theorem punctuation_is_dictation yes text s :
  text <> "" ->
  all_in Str.punctuation text = true ->
  cleaned text = ""
  /\ handle_recognized_text yes text s = append_text text s.
Proof.
  intros Hne Hall.
  assert (Str.strip text = text) as Hstrip.
  { unfold Str.strip. by rewrite lstrip_all_in, rstrip_all_in. }
  assert (cleaned text = "") as Hclean.
  { unfold cleaned. rewrite lower_all_in, Hstrip by done.
    by apply translate_delete_all_in. }
  split; [done|]. unfold handle_recognized_text.
  rewrite Hstrip, Hclean, (is_empty_false _ Hne). done.
Qed.

Lemma punctuation_is_dictation_witness :
  "..." <> "" /\ all_in Str.punctuation "..." = true
  /\ buffer (handle_recognized_text false "..." init) = "...".
Proof.
  split; [discriminate|]. split; [reflexivity|].
  rewrite (proj2 (punctuation_is_dictation false "..." init ltac:(discriminate) eq_refl)).
  reflexivity.
Defined.

(** ** Blanks around a command *)

Lemma rstrip_blank_tail right : all_space right = true -> Str.rstrip right = "".
Proof.
  induction right as [|c right IH]; simpl; [done|].
  intros [Hc Hr]%andb_prop. by rewrite IH, Hc.
Qed.

Lemma lstrip_all_space left y :
  all_space left = true -> Str.lstrip (left +:+ y) = Str.lstrip y.
Proof.
  induction left as [|c left IH]; [done|]. intros H. simpl in H.
  apply andb_prop in H as [Hc Hl]. rewrite append_cons. simpl. rewrite Hc. by apply IH.
Qed.

Lemma rstrip_all_space x right :
  all_space right = true -> Str.rstrip (x +:+ right) = Str.rstrip x.
Proof.
  intros Hr. induction x as [|c x IH].
  - rewrite append_nil_l. by apply rstrip_blank_tail.
  - rewrite append_cons. simpl. by rewrite IH.
Qed.

Lemma strip_fixed_head x :
  Str.strip x = x -> x <> "" ->
  exists c x', x = String c x' /\ Char.isspace c = false.
Proof.
  unfold Str.strip. intros Hx Hne.
  destruct (lstrip_head x) as [H|(c & s' & H & Hc)]; rewrite H in Hx.
  - by subst.
  - simpl in Hx. destruct (Str.rstrip s'); rewrite ?Hc in Hx; subst; eauto.
Qed.

(** Blanks around a text that [strip] leaves alone are all [strip] removes. *)
Lemma strip_padded left x right :
  Str.strip x = x -> x <> "" ->
  all_space left = true -> all_space right = true ->
  Str.strip (left +:+ x +:+ right) = x.
Proof.
  intros Hx Hne Hl Hr.
  destruct (strip_fixed_head x Hx Hne) as (c & x' & -> & Hc).
  unfold Str.strip in *. rewrite lstrip_all_space by done.
  assert (forall y, Str.lstrip (String c y) = String c y) as Hhead
    by (intros y; simpl; by rewrite Hc).
  rewrite append_cons, Hhead, <- append_cons, rstrip_all_space by done.
  by rewrite Hhead in Hx.
Qed.

(** A command phrase is recognized in any letter case with blanks around it
    and punctuation right next to it, inside the blanks. *)
Theorem padded_command yes text s phrase a left before after right :
  lookup_command phrase commands = Some a ->
  all_space left = true -> all_in Str.punctuation before = true ->
  all_in Str.punctuation after = true -> all_space right = true ->
  Str.lower text = left +:+ (before +:+ phrase +:+ after) +:+ right ->
  cleaned text = phrase
  /\ handle_recognized_text yes text s = run_action yes a s.
Proof.
  intros Hlookup Hl Hb Ha Hr Hlower.
  pose proof (lookup_command_plain _ _ Hlookup) as Hplain.
  pose proof (strip_decorated before phrase after Hplain Hb Ha) as Hfixed.
  assert (before +:+ phrase +:+ after <> "") as Hne.
  { destruct Hplain as (Hp & _). destruct before; [|by rewrite append_cons].
    rewrite append_nil_l. destruct phrase; [done|]. by rewrite append_cons. }
  assert (Str.strip (Str.lower text) = before +:+ phrase +:+ after) as Hstrip
    by (rewrite Hlower; by apply strip_padded).
  assert (cleaned text = phrase) as Hclean.
  { unfold cleaned. rewrite Hstrip, !translate_delete_append.
    rewrite (translate_delete_all_in _ before), (translate_delete_all_in _ after) by done.
    destruct Hplain as (_ & _ & _ & ->). by rewrite append_nil_l, append_empty_r. }
  split; [done|]. unfold handle_recognized_text.
  rewrite <- strip_lower_blank, Hstrip, (is_empty_false _ Hne), Hclean, Hlookup. done.
Qed.

Lemma padded_command_witness :
  lookup_command "new line" commands = Some (Insert Str.nl)
  /\ Str.lower "  New Line!  " = "  " +:+ ("" +:+ "new line" +:+ "!") +:+ "  "
  /\ buffer (handle_recognized_text false "  New Line!  " init) = Str.nl.
Proof.
  split; [reflexivity|]. split; [reflexivity|].
  rewrite (proj2 (padded_command false "  New Line!  " init "new line" (Insert Str.nl)
                    "  " "" "!" "  " eq_refl eq_refl eq_refl eq_refl eq_refl eq_refl)).
  reflexivity.
Defined.

(** ** Starting over *)

(** After "new dictation" or "clear text" is confirmed, the document and
    the undo log are empty whatever they held, and the next dictated text
    opens the document: its first character uppercased, nothing before it,
    recorded as chunk_0.  When the user declines, nothing changes. *)
Theorem dictation_after_clearing yes phrase text s :
  phrase = "new dictation" \/ phrase = "clear text" ->
  is_empty (Str.strip text) = false ->
  lookup_command (cleaned text) commands = None ->
  buffer (handle_recognized_text true phrase s) = ""
  /\ appended_chunks (handle_recognized_text true phrase s) = []
  /\ buffer (handle_recognized_text yes text (handle_recognized_text true phrase s))
     = Str.upper_first text
  /\ appended_chunks
       (handle_recognized_text yes text (handle_recognized_text true phrase s))
     = ["chunk_0"]
  /\ handle_recognized_text false phrase s = s.
Proof.
  intros Hphrase Hblank Hliteral.
  assert (handle_recognized_text true phrase s
          = with_appended_chunks [] (with_text_area (Text.delete_all (text_area s)) s)
          /\ handle_recognized_text false phrase s = s) as [Hyes Hno]
    by (destruct Hphrase as [-> | ->]; split; reflexivity).
  rewrite Hyes, Hno.
  assert (buffer (with_appended_chunks []
                    (with_text_area (Text.delete_all (text_area s)) s)) = "") as Hempty
    by apply content_delete_all.
  split; [done|]. split; [done|].
  unfold handle_recognized_text at 1 2. rewrite Hblank, Hliteral.
  split; [|done].
  unfold append_text, buffer, Text.get in *. simpl in *. rewrite Hempty. simpl.
  rewrite orb_true_r. simpl. by destruct text.
Qed.

Lemma dictation_after_clearing_witness :
  buffer (handle_recognized_text false "patient is well"
            (handle_recognized_text true "clear text"
               (handle_recognized_text false "old notes" init)))
  = "Patient is well".
Proof.
  destruct (dictation_after_clearing false "clear text" "patient is well"
              (handle_recognized_text false "old notes" init)
              (or_intror eq_refl) eq_refl eq_refl) as (_ & _ & -> & _).
  reflexivity.
Defined.

(** ** The pipeline at any moment *)

Lemma exec_conserves trace : forall p p',
  exec trace p = Some p' ->
  submitted p ++ submissions trace
  ≡ₚ completions trace (submitted p) ++ submitted p'.
Proof.
  induction trace as [|e trace IH]; intros p p' Hexec; simpl in Hexec.
  - injection Hexec as <-. simpl. by rewrite app_nil_r.
  - destruct (step e p) as [p1|] eqn:Hstep; [|done].
    specialize (IH p1 p' Hexec).
    destruct e as [o|i|yes|]; simpl in Hstep.
    + injection Hstep as <-. simpl in *. by rewrite <- app_assoc in IH.
    + destruct (i <? max_workers); [|done].
      destruct (submitted p !! i) as [o|] eqn:Hi; [|done].
      injection Hstep as <-. simpl in *. rewrite Hi. simpl. rewrite <- IH.
      rewrite app_comm_cons. apply Permutation_app_tail.
      by apply delete_Permutation.
    + destruct (scheduled_calls p) as [|call rest]; [done|].
      destruct (opens_dialog call); injection Hstep as <-; simpl in *; exact IH.
    + destruct (open_dialogs p) as [|[call yes] rest]; [done|].
      injection Hstep as <-. simpl in *. exact IH.
Qed.

(** At every moment of a run: each chunk handed to the pool is either still
    with the pool or has produced exactly one scheduled call; each call has
    been started at most once, oldest first; and as long as no "new
    dictation" or "clear text" confirmation was accepted, the document is
    the result of the calls started so far, in the order the workers
    completed. *)
Theorem pipeline_accounts_for_every_chunk trace p :
  exec trace start = Some p ->
  submissions trace ≡ₚ completions trace [] ++ submitted p
  /\ length (completions trace [])
     = length (answers trace) + length (scheduled_calls p)
  /\ scheduled_calls p
     = drop (length (answers trace)) (map process_audio (completions trace []))
  /\ (forallb declined
        (zip (map process_audio (completions trace [])) (answers trace)) = true ->
      document p
      = run_all (zip (map process_audio (completions trace [])) (answers trace)) init).
Proof.
  intros Hexec.
  pose proof (exec_conserves _ _ _ Hexec) as Hperm.
  destruct (exec_calls _ _ _ Hexec) as (Hlen & Hrest). simpl in *.
  rewrite length_map in Hlen.
  split; [done|]. split; [|split; [done|]].
  - rewrite Hrest, length_drop, length_map. lia.
  - intros Hno. exact (exec_document _ _ _ Hexec (List.Forall_nil _) Hno).
Qed.

Lemma pipeline_accounts_for_every_chunk_witness :
  exists p,
    exec (map Submit hello_stop_world ++ [Complete 1; Dispatch false]) start = Some p
    /\ submitted p = [Transcript "hello"; Transcript "world"]
    /\ scheduled_calls p = []
    /\ buffer (document p) = ". ".
Proof.
  eexists. split; [reflexivity|]. split; [reflexivity|].
  destruct (pipeline_accounts_for_every_chunk
              (map Submit hello_stop_world ++ [Complete 1; Dispatch false]) _ eq_refl)
    as (_ & _ & -> & Hdoc).
  split; [reflexivity|]. rewrite (Hdoc eq_refl). reflexivity.
Defined.

Lemma exec_app t1 t2 p : exec (t1 ++ t2) p = exec t1 p ≫= exec t2.
Proof.
  revert p. induction t1 as [|e t1 IH]; intros p; simpl; [done|].
  destruct (step e p); [apply IH|done].
Qed.

Lemma exec_complete_all pending : forall calls doc dialogs,
  exec (replicate (length pending) (Complete 0)) (mkPipeline pending calls doc dialogs)
  = Some (mkPipeline [] (calls ++ map process_audio pending) doc dialogs).
Proof.
  induction pending as [|o pending IH]; intros calls doc dialogs; simpl.
  - by rewrite app_nil_r.
  - rewrite IH. by rewrite <- app_assoc.
Qed.

(** The dialogs a series of calls opens when each is to be answered "no",
    the one opened last first. *)
Lemma exec_dispatch_all calls : forall doc dialogs,
  exec (replicate (length calls) (Dispatch false)) (mkPipeline [] calls doc dialogs)
  = Some (mkPipeline [] []
            (run_all (map (fun call => (call, false)) calls) doc)
            (rev (map (fun call => (call, false)) (List.filter opens_dialog calls))
             ++ dialogs)).
Proof.
  induction calls as [|call calls IH]; intros doc dialogs; [done|].
  cbn [length replicate exec step scheduled_calls submitted document open_dialogs
       map List.filter run_all].
  destruct (opens_dialog call) eqn:Hd.
  - rewrite IH, (run_scheduled_declined _ _ Hd).
    cbn [map rev]. by rewrite <- app_assoc.
  - apply IH.
Qed.

Lemma exec_close_all dialogs : forall doc,
  exec (replicate (length dialogs) Close) (mkPipeline [] [] doc dialogs)
  = Some (mkPipeline [] [] (run_all dialogs doc) []).
Proof.
  induction dialogs as [|[call yes] dialogs IH]; intros doc; simpl; [done|]. apply IH.
Qed.

Lemma run_all_declined calls doc :
  run_all (rev (map (fun call => (call, false)) (List.filter opens_dialog calls))) doc
  = doc.
Proof.
  induction calls as [|call calls IH]; [done|]. cbn [List.filter].
  destruct (opens_dialog call) eqn:Hd; [|done]. cbn [map rev].
  rewrite run_all_app, IH. cbn [run_all]. by apply run_scheduled_declined.
Qed.

(** No chunk is ever stranded: from any state of the pipeline, letting the
    oldest chunk complete each time, running the event loop and answering
    the dialogs empties the pool, the queue and the screen.  With "no" to
    every dialog opened on the way, the document is the one given by the
    waiting calls and then the pending results in the order they were
    spoken, followed by the answers to the dialogs that were already open. *)
Theorem pipeline_can_drain p :
  exec (drain p) p
  = Some (mkPipeline [] []
            (run_all (open_dialogs p)
               (run_all (map (fun call => (call, false))
                           (scheduled_calls p ++ map process_audio (submitted p)))
                  (document p)))
            []).
Proof.
  destruct p as [pending calls doc dialogs]. unfold drain. simpl.
  rewrite exec_app, exec_complete_all. simpl.
  replace (length calls + length pending)
    with (length (calls ++ map process_audio pending))
    by (by rewrite length_app, length_map).
  rewrite exec_app, exec_dispatch_all. simpl.
  replace (length (List.filter opens_dialog (calls ++ map process_audio pending))
           + length dialogs)
    with (length (rev (map (fun call => (call, false))
                         (List.filter opens_dialog (calls ++ map process_audio pending)))
                  ++ dialogs))
    by (by rewrite length_app, length_rev, length_map).
  rewrite exec_close_all. by rewrite run_all_app, run_all_declined.
Qed.

(** ** [strip] *)

Lemma rstrip_idempotent s : Str.rstrip (Str.rstrip s) = Str.rstrip s.
Proof.
  induction s as [|c s IH]; [done|]. simpl.
  destruct (Str.rstrip s) as [|d r] eqn:Hr.
  - destruct (Char.isspace c) eqn:Hc; [done|]. simpl. by rewrite Hc.
  - simpl in *. by rewrite IH.
Qed.

Lemma strip_idempotent s : Str.strip (Str.strip s) = Str.strip s.
Proof.
  unfold Str.strip. destruct (lstrip_head s) as [->|(c & s' & -> & Hc)]; [done|].
  assert (exists r, Str.rstrip (String c s') = String c r) as [r Hr].
  { simpl. destruct (Str.rstrip s'); rewrite ?Hc; eauto. }
  rewrite Hr. simpl Str.lstrip. rewrite Hc, <- Hr. apply rstrip_idempotent.
Qed.

Lemma lstrip_all_space_only s : all_space s = true -> Str.lstrip s = "".
Proof.
  induction s as [|c s IH]; simpl; [done|].
  intros [Hc Hs]%andb_prop. rewrite Hc. by apply IH.
Qed.

(** Whitespace at the end of a text does not change what [strip] gives. *)
Lemma strip_trailing_space s right :
  all_space right = true -> Str.strip (s +:+ right) = Str.strip s.
Proof.
  intros Hr. unfold Str.strip. induction s as [|c s IH].
  - rewrite append_nil_l, lstrip_all_space_only by done. done.
  - rewrite append_cons. simpl. destruct (Char.isspace c); [exact IH|].
    rewrite <- append_cons. by apply rstrip_all_space.
Qed.

Lemma strip_get_to_end w : Str.strip (Text.get_to_end w) = Str.strip (Text.get w).
Proof. unfold Text.get_to_end, Text.get. by apply strip_trailing_space. Qed.

(** ** AI requests *)

Lemma buffer_update_text_area new_text message b w :
  buffer (core (_update_text_area new_text message b w)) = new_text.
Proof.
  unfold _update_text_area, buffer, Text.get. simpl.
  by rewrite content_delete_all.
Qed.

Lemma process_text_with_ai_text b w :
  Str.strip (buffer (core w)) <> "" ->
  _process_text_with_ai b w
  = (with_progress_bar true
       (config_button b false
          (with_core (update_status "Processing text..." (core w)) w)),
     Some (Str.strip (buffer (core w)))).
Proof.
  intros Hne. unfold _process_text_with_ai. rewrite strip_get_to_end.
  fold (buffer (core w)). by rewrite (is_empty_false _ Hne).
Qed.

(** A click on the refine button with a document that is not blank: when
    the answer arrives the buffer is replaced by it, whatever was dictated
    or changed in between.  On success that is the trimmed answer of the
    service; when the API call fails it is the whole prompt with the
    trimmed document inside.  Either way the status says "Text refined.",
    the button is enabled again, the progress bar is stopped, and the undo
    log still holds the records of the replaced text. *)
Theorem refine_text_result REFINE_PROMPT response between w :
  refine_button w = true ->
  Str.strip (buffer (core w)) <> "" ->
  buffer (core (refine_text REFINE_PROMPT response between w))
  = match response with
    | Some content => Str.strip content
    | None => refine_full_prompt REFINE_PROMPT (Str.strip (buffer (core w)))
    end
  /\ head (status_label (core (refine_text REFINE_PROMPT response between w)))
     = Some "Status: Text refined."
  /\ appended_chunks (core (refine_text REFINE_PROMPT response between w))
     = appended_chunks (core (between (fst (_process_text_with_ai RefineButton w))))
  /\ refine_button (refine_text REFINE_PROMPT response between w) = true
  /\ progress_bar (refine_text REFINE_PROMPT response between w) = false.
Proof.
  intros Hbutton Hne. unfold refine_text, ai_request. simpl button_state.
  rewrite Hbutton, process_text_with_ai_text by done.
  rewrite buffer_update_text_area. split; [by destruct response|]. done.
Qed.

Lemma refine_text_result_witness :
  buffer (core (refine_text "Fix the grammar." None
                  (window_recognized false "more words")
                  (window_recognized false "pt stable" (init_window true))))
  = "Fix the grammar." +:+ Str.nl +:+ Str.nl +:+ "Original: Pt stable"
    +:+ Str.nl +:+ Str.nl +:+ "Corrected:".
Proof.
  rewrite (proj1 (refine_text_result "Fix the grammar." None
                    (window_recognized false "more words")
                    (window_recognized false "pt stable" (init_window true))
                    eq_refl ltac:(discriminate))).
  reflexivity.
Defined.

(** What [call_openai] returns: on success the content without whitespace
    at either end (trimming it again changes nothing), on any failure the
    prompt it was given, untouched. *)
Theorem call_openai_result response prompt :
  call_openai response prompt
  = match response with Some content => Str.strip content | None => prompt end
  /\ (forall content, response = Some content ->
        Str.strip (call_openai response prompt) = call_openai response prompt
        /\ Str.lstrip (call_openai response prompt) = call_openai response prompt).
Proof.
  split; [done|]. intros content ->. simpl. split; [apply strip_idempotent|].
  unfold Str.strip. destruct (lstrip_head content) as [->|(c & s' & -> & Hc)]; [done|].
  simpl. destruct (Str.rstrip s'); rewrite ?Hc; simpl; by rewrite ?Hc.
Qed.



(** An AI request on a blank document, or from a disabled button, changes
    nothing and submits no task. *)
Theorem ai_request_ignored b message api_func between w :
  button_state b w = false \/ Str.strip (buffer (core w)) = "" ->
  ai_request b message api_func between w = w.
Proof.
  intros [Hoff|Hblank]; unfold ai_request; [by rewrite Hoff|].
  destruct (button_state b w); [|done].
  unfold _process_text_with_ai. rewrite strip_get_to_end. fold (buffer (core w)).
  by rewrite Hblank.
Qed.

Lemma ai_request_ignored_witness :
  refine_text "Fix the grammar." (Some "x") (fun w => w) (init_window false)
  = init_window false.
Proof.
  apply (ai_request_ignored RefineButton). left. reflexivity.
Defined.

(** ** Saving *)

(** [save_text] writes a file exactly when the document is not blank and
    the dialog gave a path; the text written is the trimmed document: not
    empty, and without whitespace at either end. *)
Theorem saved_text_is_trimmed file_path s :
  match saved_text file_path s with
  | Some (path, text) =>
      path = file_path /\ file_path <> ""
      /\ text = Str.strip (buffer s) /\ text <> "" /\ Str.strip text = text
  | None => Str.strip (buffer s) = "" \/ file_path = ""
  end.
Proof.
  unfold saved_text. rewrite strip_get_to_end. fold (buffer s).
  destruct (Str.strip (buffer s)) as [|c t] eqn:Hs; simpl; [by left|].
  destruct file_path as [|d p]; simpl; [by right|].
  repeat split; try done. rewrite <- Hs. apply strip_idempotent.
Qed.

(** ** Microphones *)

Lemma starts_with_prefix a b s :
  starts_with (a +:+ b) s = true -> starts_with a s = true.
Proof.
  revert s. induction a as [|c a IH]; intros s; [done|].
  rewrite append_cons. destruct s as [|d s]; simpl; [done|].
  intros [Hc Hs]%andb_prop. rewrite Hc. simpl. by apply IH.
Qed.

(** A text that holds a word holds every beginning of that word. *)
Lemma contains_prefix a b s :
  contains (a +:+ b) s = true -> contains a s = true.
Proof.
  induction s as [|d s IH]; simpl.
  - rewrite orb_false_r. intros H. rewrite (starts_with_prefix a b _ H). done.
  - intros [H|H]%orb_prop.
    + by rewrite (starts_with_prefix a b _ H).
    + rewrite (IH H). apply orb_true_r.
Qed.

Lemma is_valid_microphone_spec info :
  is_valid_microphone info = true <->
  exists n channels,
    name info = Some n /\ maxInputChannels info = Some channels
    /\ (0 < channels)%Z
    /\ contains "mic" (Str.lower n) || contains "input" (Str.lower n)
       || contains "usb" (Str.lower n) = true.
Proof.
  unfold is_valid_microphone, mic_keywords. simpl existsb.
  destruct info as [[channels|] [n|]]; simpl default.
  - pose proof (contains_prefix "mic" "rophone" (Str.lower n)) as Hpre.
    change ("mic" +:+ "rophone") with "microphone" in Hpre.
    split.
    + intros [Hc Hk]%andb_prop. exists n, channels.
      repeat split; [by apply Z.ltb_lt|].
      destruct (contains "microphone" _), (contains "mic" _),
        (contains "input" _), (contains "usb" _); simpl in *; try done.
      all: by specialize (Hpre eq_refl).
    + intros (n' & c' & [= <-] & [= <-] & Hc & Hk).
      apply andb_true_intro. split; [by apply Z.ltb_lt|].
      destruct (contains "microphone" _), (contains "mic" _),
        (contains "input" _), (contains "usb" _); simpl in *; done.
  - split; [by intros [_ H]%andb_prop|]. by intros (? & ? & [=] & _).
  - split; [done|]. by intros (? & ? & _ & [=] & _).
  - split; [done|]. by intros (? & ? & [=] & _).
Qed.

(** The names [get_valid_microphones] returns are exactly the names of the
    devices that have a name, at least one input channel, and "mic",
    "input" or "usb" somewhere in the name, letter case ignored (the keyword
    "microphone" adds nothing); they come in the order of the devices. *)
Theorem valid_microphone_names devices :
  (forall n,
     In n (get_valid_microphones devices) <->
     exists info channels,
       In info devices /\ name info = Some n
       /\ maxInputChannels info = Some channels /\ (0 < channels)%Z
       /\ contains "mic" (Str.lower n) || contains "input" (Str.lower n)
          || contains "usb" (Str.lower n) = true)
  /\ sublist (get_valid_microphones devices)
       (map (fun info => default "" (name info)) devices).
Proof.
  split.
  - intros n. unfold get_valid_microphones. rewrite in_map_iff. split.
    + intros (info & Hn & [Hin Hvalid]%filter_In).
      apply is_valid_microphone_spec in Hvalid as (n' & c & Hname & Hc & Hpos & Hk).
      rewrite Hname in Hn. simpl in Hn. subst n'. by exists info, c.
    + intros (info & c & Hin & Hname & Hc & Hpos & Hk). exists info.
      split; [by rewrite Hname|]. apply filter_In. split; [done|].
      apply is_valid_microphone_spec. by exists n, c.
  - unfold get_valid_microphones. induction devices as [|info devices IH]; simpl.
    + constructor.
    + destruct (is_valid_microphone info); simpl; by constructor.
Qed.

(** The combobox lists the accepted names, but [start_recording] uses the
    selected position as a device index.  So when the first device PyAudio
    enumerates is not an accepted microphone while some later one is, the
    default selection shows the name of an accepted microphone and Record
    opens the first device, the one the filter rejected. *)
Theorem selected_position_is_not_device_index devices all_names first rest :
  devices = first :: rest ->
  is_valid_microphone first = false ->
  get_valid_microphones devices <> [] ->
  exists shown current,
    mic_current devices all_names = Some current
    /\ mic_names devices all_names !! current = Some shown
    /\ In shown (get_valid_microphones rest)
    /\ opened_device devices current = Some first.
Proof.
  intros -> Hfirst Hsome.
  unfold mic_current, mic_names, get_valid_microphones in *. simpl in *.
  rewrite Hfirst in *.
  destruct (map _ (List.filter is_valid_microphone rest)) as [|shown names] eqn:Hnames;
    [done|].
  exists shown, 0. repeat split. by left.
Qed.

Lemma selected_position_is_not_device_index_witness :
  exists shown,
    mic_names [mkDevice (Some 0%Z) (Some "Speakers"); mkDevice (Some 2%Z) (Some "USB Headset")] []
      !! 0 = Some shown
    /\ shown = "USB Headset"
    /\ opened_device
         [mkDevice (Some 0%Z) (Some "Speakers"); mkDevice (Some 2%Z) (Some "USB Headset")] 0
       = Some (mkDevice (Some 0%Z) (Some "Speakers")).
Proof.
  destruct (selected_position_is_not_device_index
              [mkDevice (Some 0%Z) (Some "Speakers"); mkDevice (Some 2%Z) (Some "USB Headset")]
              [] (mkDevice (Some 0%Z) (Some "Speakers"))
              [mkDevice (Some 2%Z) (Some "USB Headset")] eq_refl eq_refl ltac:(discriminate))
    as (shown & current & Hcur & Hshown & Hin & Hopen).
  injection Hcur as <-. exists shown. split; [exact Hshown|].
  split; [|exact Hopen]. vm_compute in Hin. by destruct Hin.
Defined.

(** ** Record and Stop *)

Lemma buttons_follow_click c w :
  buttons_follow_listening w -> buttons_follow_listening (click_recording c w).
Proof.
  unfold buttons_follow_listening. intros (Hrec & Hstop & Hfun).
  destruct c as [mic_ok|]; simpl.
  - destruct (record_button w) eqn:Hr; [|by rewrite Hr].
    unfold start_recording. destruct (listening w) eqn:Hl; [by rewrite Hr, Hl|].
    destruct mic_ok; simpl; [done|]. by rewrite Hr, Hl.
  - destruct (stop_button w) eqn:Hs; [|by rewrite Hs].
    unfold stop_recording. destruct (listening w) eqn:Hl; simpl; [|by rewrite Hs, Hl].
    rewrite (Hfun eq_refl). simpl. done.
Qed.

Lemma text_area_click c w :
  text_area (core (click_recording c w)) = text_area (core w)
  /\ appended_chunks (core (click_recording c w)) = appended_chunks (core w).
Proof.
  destruct c as [mic_ok|]; simpl.
  - destruct (record_button w); [|done]. unfold start_recording.
    destruct (listening w); [done|]. by destruct mic_ok.
  - destruct (stop_button w); [|done]. unfold stop_recording.
    by destruct (listening w && stop_listening_function w).
Qed.

Lemma buttons_follow_clicks clicks : forall w,
  buttons_follow_listening w -> buttons_follow_listening (run_clicks clicks w).
Proof.
  induction clicks as [|c clicks IH]; intros w Hw; simpl; [done|].
  by apply IH, buttons_follow_click.
Qed.

Lemma text_area_clicks clicks : forall w,
  text_area (core (run_clicks clicks w)) = text_area (core w)
  /\ appended_chunks (core (run_clicks clicks w)) = appended_chunks (core w).
Proof.
  induction clicks as [|c clicks IH]; intros w; simpl; [done|].
  destruct (IH (click_recording c w)) as [-> ->]. apply text_area_click.
Qed.

(** Whatever the user clicks on Record and Stop, and whether or not the
    microphone can be opened: from the initial window on, Record is enabled
    exactly when the application is not listening and Stop exactly when it
    is (any window where that holds keeps it); and in any window at all the
    clicks leave the text widget and the undo log exactly as they were. *)
Theorem recording_buttons_invariant has_openai_key clicks w :
  buttons_follow_listening (run_clicks clicks (init_window has_openai_key))
  /\ (buttons_follow_listening w -> buttons_follow_listening (run_clicks clicks w))
  /\ text_area (core (run_clicks clicks w)) = text_area (core w)
  /\ appended_chunks (core (run_clicks clicks w)) = appended_chunks (core w).
Proof.
  split; [|split; [apply buttons_follow_clicks | apply text_area_clicks]].
  apply buttons_follow_clicks. unfold buttons_follow_listening.
  by destruct has_openai_key.
Qed.

(** When the microphone cannot be opened, Record leaves the application not
    listening with Record still enabled, yet the status bar now says
    "Listening..."; Stop, being disabled, cannot put it back to "Idle". *)
Theorem microphone_error_leaves_listening_status w :
  buttons_follow_listening w ->
  listening w = false ->
  listening (click_recording (ClickRecord false) w) = false
  /\ record_button (click_recording (ClickRecord false) w) = true
  /\ status_label (core (click_recording (ClickRecord false) w))
     = "Status: Listening..." :: status_label (core w)
  /\ click_recording ClickStop (click_recording (ClickRecord false) w)
     = click_recording (ClickRecord false) w.
Proof.
  intros (Hrec & Hstop & _) Hl. rewrite Hl in *. simpl in *.
  unfold start_recording. rewrite Hrec, Hl. simpl. by rewrite Hl, Hrec, Hstop.
Qed.

Lemma microphone_error_leaves_listening_status_witness :
  listening (click_recording (ClickRecord false) (init_window true)) = false
  /\ status_label (core (click_recording (ClickRecord false) (init_window true)))
     = ["Status: Listening..."; "Status: Idle"].
Proof.
  assert (buttons_follow_listening (init_window true)) as Hinit
    by (unfold buttons_follow_listening; simpl; auto).
  destruct (microphone_error_leaves_listening_status (init_window true) Hinit eq_refl)
    as (H1 & _ & H2 & _).
  split; [exact H1 | exact H2].
Defined.

(** ** Loading an audio file *)

(** The task of a load gives a transcript exactly when the file name ends
    in .mp3 or .wav (letter case ignored), the file could be decoded, a
    Deepgram client exists and its transcription did not raise. *)
Lemma load_audio_task_some file_path decoded deepgram transcript :
  load_audio_task file_path decoded deepgram = Some transcript <->
  (ends_with ".mp3" (Str.lower file_path) = true
   \/ ends_with ".wav" (Str.lower file_path) = true)
  /\ decoded = true /\ deepgram = Some (Some transcript).
Proof.
  unfold load_audio_task.
  destruct (ends_with ".mp3" _), (ends_with ".wav" _), decoded,
    deepgram as [[t|]|]; simpl; split; try done;
    try (intros [= ->]; auto); try (intros (_ & _ & [= ->]); done);
    try (intros ([|] & _); done); try (intros (_ & [=] & _)); try (intros (_ & _ & [=])).
Qed.

(** A load that fails (wrong extension, unreadable file, no Deepgram
    client, or a transcription error) leaves the document and the undo log
    as the event loop left them, enables Load again and stops the progress
    bar; it never resets the status, which still says "Transcribing
    audio..." unless something else wrote to it meanwhile. *)
Theorem failed_load_keeps_document file_path decoded deepgram between w :
  load_button w = true ->
  file_path <> "" ->
  load_audio_task file_path decoded deepgram = None ->
  core (load_audio_file file_path decoded deepgram between w)
  = core (between (loading w))
  /\ status_label (core (loading w))
     = "Status: Transcribing audio..." :: status_label (core w)
  /\ text_area (core (loading w)) = text_area (core w)
  /\ load_button (load_audio_file file_path decoded deepgram between w) = true
  /\ progress_bar (load_audio_file file_path decoded deepgram between w) = false.
Proof.
  intros Hbutton Hpath Hfail. unfold load_audio_file.
  rewrite Hbutton, (is_empty_false _ Hpath), Hfail. simpl. done.
Qed.

Lemma failed_load_keeps_document_witness :
  load_audio_task "visit.ogg" true (Some (Some "hello")) = None
  /\ buffer (core (load_audio_file "visit.ogg" true (Some (Some "hello")) (fun w => w)
                     (window_recognized false "pt stable" (init_window true))))
     = "Pt stable"
  /\ head (status_label
             (core (load_audio_file "visit.ogg" true (Some (Some "hello")) (fun w => w)
                      (window_recognized false "pt stable" (init_window true)))))
     = Some "Status: Transcribing audio...".
Proof.
  split; [reflexivity|].
  destruct (failed_load_keeps_document "visit.ogg" true (Some (Some "hello")) (fun w => w)
              (window_recognized false "pt stable" (init_window true))
              eq_refl ltac:(discriminate) eq_refl) as (-> & _).
  split; reflexivity.
Defined.

(** A load that succeeds replaces the whole document by the transcript as
    the service gave it (not trimmed, not capitalised), whatever was
    dictated meanwhile, and reports success; the undo log keeps the records
    of the text that was replaced. *)
Theorem successful_load_replaces_document file_path decoded deepgram transcript between w :
  load_button w = true ->
  file_path <> "" ->
  load_audio_task file_path decoded deepgram = Some transcript ->
  buffer (core (load_audio_file file_path decoded deepgram between w)) = transcript
  /\ status_label (core (load_audio_file file_path decoded deepgram between w))
     = "Status: Audio transcribed successfully."
       :: status_label (core (between (loading w)))
  /\ appended_chunks (core (load_audio_file file_path decoded deepgram between w))
     = appended_chunks (core (between (loading w)))
  /\ load_button (load_audio_file file_path decoded deepgram between w) = true
  /\ progress_bar (load_audio_file file_path decoded deepgram between w) = false.
Proof.
  intros Hbutton Hpath Hok. unfold load_audio_file.
  rewrite Hbutton, (is_empty_false _ Hpath), Hok. simpl.
  split; [|done]. fold (loading w).
  apply (buffer_update_text_area transcript _ LoadButton (between (loading w))).
Qed.

Lemma successful_load_replaces_document_witness :
  load_audio_task "Visit.WAV" true (Some (Some " hello there ")) = Some " hello there "
  /\ buffer (core (load_audio_file "Visit.WAV" true (Some (Some " hello there "))
                     (window_recognized false "lost words")
                     (window_recognized false "pt stable" (init_window true))))
     = " hello there ".
Proof.
  split; [reflexivity|].
  apply (proj1 (successful_load_replaces_document "Visit.WAV" true
                  (Some (Some " hello there ")) " hello there "
                  (window_recognized false "lost words")
                  (window_recognized false "pt stable" (init_window true))
                  eq_refl ltac:(discriminate) eq_refl)).
Defined.

(** ** Confirmation dialogs *)

(** When the user accepts a "new dictation" or "clear text" confirmation,
    the document and the undo log are empty at that moment, whatever the
    event loop applied while the dialog was open; the pool and the waiting
    calls are not touched. *)
Theorem accepted_confirmation_empties_document p call rest :
  open_dialogs p = (call, true) :: rest ->
  opens_dialog call = true ->
  exists p',
    step Close p = Some p'
    /\ buffer (document p') = ""
    /\ appended_chunks (document p') = []
    /\ open_dialogs p' = rest
    /\ scheduled_calls p' = scheduled_calls p
    /\ submitted p' = submitted p.
Proof.
  intros Hopen Hdialog. eexists. split; [simpl; by rewrite Hopen|]. simpl.
  repeat split.
  all: destruct call as [text|message]; [|done].
  all: unfold opens_dialog in Hdialog; unfold run_scheduled, handle_recognized_text.
  all: destruct (is_empty (Str.strip text)); [done|].
  all: destruct (lookup_command (cleaned text) commands) as [a|]; [|done].
  all: destruct a; try done; simpl; unfold buffer, Text.get; simpl.
  all: apply content_delete_all.
Qed.

Lemma accepted_confirmation_empties_document_witness :
  exec clear_while_dictating start = Some dialog_open
  /\ buffer (document dialog_open) = "Old notes patient is well"
  /\ exists p',
       step Close dialog_open = Some p'
       /\ buffer (document p') = ""
       /\ appended_chunks (document p') = [].
Proof.
  split; [reflexivity|]. split; [reflexivity|].
  destruct (accepted_confirmation_empties_document
              dialog_open (HandleRecognizedText "clear text") [] eq_refl eq_refl)
    as (p' & Hstep & Hbuffer & Hlog & _).
  exists p'. split; [exact Hstep|]. split; [exact Hbuffer | exact Hlog].
Defined.
